(** * Mixed-language translation helper: tagging, scoring and selection

    A shallow embedding of [language_detector.py] and [model_handler.py].

    Conventions of the embedding.
    - A Python [str] holding text is a list of Unicode code points
      ([pystr]); language tags and the identifier's short codes, which the
      code only compares for equality, are Rocq strings.
    - A Python float is the rational number it stands for, and every float
      operation rounds its exact result to the nearest binary64 number, ties
      to even ([round53]). Python strings have fewer than 2^63 characters,
      so no operation of the code overflows or reaches the subnormal range,
      and the exponent is left unbounded.
    - The Unicode table behind the regular expression class [\w] is not
      part of the repository and is a parameter ([is_word]); so are the
      external language identifier ([detect]), the flag telling whether it
      could be imported, and the translation engine ([generate]).
    - External calls are recorded in a [World]; a raised exception is the
      [Raise] result. *)

From Stdlib Require Import List ZArith QArith Qround Qpower Qabs Bool String Ascii.
From Stdlib Require Import Lia Lqa Sorted Permutation.
Import ListNotations.

Local Open Scope Z_scope.

(** ** Text *)

Definition char := Z.
Definition pystr := list char.

(** A literal of ASCII text as code points. *)
Definition lit (s : string) : pystr :=
  map (fun a => Z.of_N (N_of_ascii a)) (list_ascii_of_string s).

Definition in_range (lo hi c : Z) : bool := (lo <=? c) && (c <=? hi).

(** Whitespace as [str.isspace], [str.strip] and the class [\s] of a
    Unicode pattern see it. *)
Definition is_space (c : char) : bool :=
  in_range 9 13 c || in_range 28 32 c || (c =? 133) || (c =? 160)
  || (c =? 5760) || in_range 8192 8202 c || (c =? 8232) || (c =? 8233)
  || (c =? 8239) || (c =? 8287) || (c =? 12288).

Fixpoint lstrip (s : pystr) : pystr :=
  match s with
  | [] => []
  | c :: r => if is_space c then lstrip r else s
  end.

(** [not s] *)
Definition is_empty (s : pystr) : bool :=
  match s with
  | [] => true
  | _ => false
  end.

Definition rstrip (s : pystr) : pystr := rev (lstrip (rev s)).

Definition strip (s : pystr) : pystr := rstrip (lstrip s).

(** [str.isspace]: at least one character, all of them whitespace. *)
Definition isspace (s : pystr) : bool :=
  match s with
  | [] => false
  | _ => forallb is_space s
  end.

(** [re.sub(r"\s+", " ", text)]: every maximal run of whitespace becomes one
    space; [in_run] tells that the previous character was whitespace. *)
Fixpoint sub_ws (in_run : bool) (s : pystr) : pystr :=
  match s with
  | [] => []
  | c :: r =>
      if is_space c
      then (if in_run then sub_ws true r else 32 :: sub_ws true r)
      else c :: sub_ws false r
  end.

Definition normalize (text : pystr) : pystr :=
  if is_empty text then [] else strip (sub_ws false text).

(** ** Script helpers of model_handler.py *)

Definition ARABIC_RE (c : char) : bool := in_range 1536 1791 c.
Definition LATIN_RE (c : char) : bool := in_range 65 90 c || in_range 97 122 c.
Definition CYRILLIC_RE (c : char) : bool := in_range 1024 1279 c.
Definition CJK_RE (c : char) : bool := in_range 19968 40959 c.

(** [len(RE.findall(text))] for a pattern of one character class. *)
Definition count_matches (re : char -> bool) (text : pystr) : Z :=
  Z.of_nat (List.length (filter re text)).

Definition tag_in (t : string) (l : list string) : bool :=
  existsb (String.eqb t) l.

Definition arabic_targets : list string :=
  ["arb_Arab"; "pes_Arab"; "urd_Arab"]%string.
Definition latin_targets : list string :=
  ["eng_Latn"; "fra_Latn"; "spa_Latn"; "deu_Latn"; "ita_Latn"; "por_Latn";
   "tur_Latn"; "nld_Latn"]%string.
Definition cyrillic_targets : list string :=
  ["rus_Cyrl"; "ukr_Cyrl"; "bul_Cyrl"]%string.
Definition cjk_targets : list string :=
  ["zho_Hans"; "zho_Hant"; "jpn_Jpan"; "kor_Hang"]%string.

Definition count_leftover_scripts (text : pystr) (target_lang_code : string) : Z :=
  if is_empty text then 999
  else
      let arabic := count_matches ARABIC_RE text in
      let latin := count_matches LATIN_RE text in
      let cyr := count_matches CYRILLIC_RE text in
      let cjk := count_matches CJK_RE text in
      if tag_in target_lang_code arabic_targets then latin + cyr + cjk
      else if tag_in target_lang_code latin_targets then arabic + cyr + cjk
      else if tag_in target_lang_code cyrillic_targets then latin + arabic + cjk
      else if tag_in target_lang_code cjk_targets then latin + arabic + cyr
      else latin + arabic.

(** ** Results and exceptions *)

Inductive exn := IndexError | KeyError | ValueError | EngineError.

Inductive result (A : Type) :=
| Ok (a : A)
| Raise (e : exn).
Arguments Ok {A} a.
Arguments Raise {A} e.

(** [s[-1]] *)
Definition last_char (s : pystr) : result char :=
  match rev s with
  | [] => Raise IndexError
  | c :: _ => Ok c
  end.

(** The characters of [".!?؟"]. *)
Definition terminators : list char := [46; 33; 63; 1567].

Definition is_terminator (c : char) : bool := existsb (Z.eqb c) terminators.

Definition len (s : pystr) : Z := Z.of_nat (List.length s).

Local Open Scope Q_scope.

(** ** Binary64 arithmetic *)

(** The integer nearest to a rational, ties to the even one. *)
Definition round_half_even (q : Q) : Z :=
  let f := Qfloor q in
  match Qcompare (q - inject_Z f) (1 # 2) with
  | Lt => f
  | Gt => (f + 1)%Z
  | Eq => if Z.even f then f else (f + 1)%Z
  end.

(** For [a > 0], the exponent [e] with [2^e <= a < 2^(e+1)]. *)
Definition floor_log2 (a : Q) : Z :=
  let k := (Z.log2 (Qnum a) - Z.log2 (Zpos (Qden a)))%Z in
  if Qle_bool (2 ^ k) a then k else (k - 1)%Z.

(** For [a > 0], the nearest number with 53 significant bits. *)
Definition round_pos (a : Q) : Q :=
  let u := 2 ^ (floor_log2 a - 52) in
  inject_Z (round_half_even (a / u)) * u.

(** The binary64 number nearest to a rational, ties to even. *)
Definition round53 (q : Q) : Q :=
  match Qcompare q 0 with
  | Eq => 0
  | Gt => Qred (round_pos q)
  | Lt => Qred (- round_pos (- q))
  end.

(** A float literal, the conversion of an [int], and the float operations. *)
Definition float_lit (q : Q) : Q := round53 q.
Definition float_of_int (n : Z) : Q := round53 (inject_Z n).
Definition fadd (x y : Q) : Q := round53 (x + y).
Definition fsub (x y : Q) : Q := round53 (x - y).
Definition fmul (x y : Q) : Q := round53 (x * y).

(** [a / b] on two [int]s: the quotient, correctly rounded. *)
Definition int_truediv (a b : Z) : Q := round53 (inject_Z a / inject_Z b).

(** [x < y] *)
Definition Qltb (x y : Q) : bool := negb (Qle_bool y x).

(** ** The score of a translation *)

Definition length_ratio (source translation : pystr) : Q :=
  int_truediv (len translation) (Z.max (len source) 1).

Definition end_bonus_of (c : char) : Q :=
  if is_terminator c then float_lit (25 # 100) else float_lit 0.

Definition leftover_penalty_of (leftover : Z) : Q :=
  fmul (float_of_int leftover) (float_lit (2 # 100)).

Definition short_penalty_of (ratio : Q) : Q :=
  if Qltb ratio (float_lit (55 # 100)) then float_lit (7 # 10) else float_lit 0.

Definition score_translation (source translation : pystr)
    (target_lang_code : string) : result Q :=
  if is_empty translation then Ok (- (999 # 1))
  else
      let source := normalize source in
      let translation := normalize translation in
      let ratio := length_ratio source translation in
      match last_char translation with
      | Raise e => Raise e
      | Ok c =>
          let end_bonus := end_bonus_of c in
          let leftover := count_leftover_scripts translation target_lang_code in
          let leftover_penalty := leftover_penalty_of leftover in
          let short_penalty := short_penalty_of ratio in
          Ok (fsub (fadd ratio end_bonus) (fadd leftover_penalty short_penalty))
      end.

(** [round(x, 3)]: the exact value of [x] rounded to the nearest thousandth,
    ties to even, and that decimal number rounded to binary64. *)
Definition round3 (q : Q) : Q :=
  round53 (inject_Z (round_half_even (q * 1000)) / 1000).

Local Close Scope Q_scope.
Local Open Scope string_scope.
Local Open Scope list_scope.

(** ** Tables of language_detector.py *)

Definition MAP : list (string * string) :=
  [("ar", "arb_Arab"); ("en", "eng_Latn"); ("fr", "fra_Latn");
   ("es", "spa_Latn"); ("de", "deu_Latn"); ("it", "ita_Latn");
   ("pt", "por_Latn"); ("ru", "rus_Cyrl"); ("tr", "tur_Latn");
   ("nl", "nld_Latn"); ("pl", "pol_Latn"); ("sv", "swe_Latn");
   ("id", "ind_Latn"); ("vi", "vie_Latn")].

(** Each pattern is a character class under [+]; [pat.search] succeeds when
    some character of the token is in the class. *)
Definition SCRIPT_PATTERNS : list (string * (char -> bool)) :=
  [("arabic", fun c => in_range 1536 1791 c || in_range 1872 1919 c
                       || in_range 2208 2303 c);
   ("cyrillic", in_range 1024 1279);
   ("greek", in_range 880 1023);
   ("hebrew", in_range 1424 1535);
   ("thai", in_range 3584 3711);
   ("devanagari", in_range 2304 2431);
   ("korean", in_range 44032 55215);
   ("japanese", in_range 12352 12543);
   ("chinese", in_range 19968 40959)].

Definition SCRIPT_DEFAULT : list (string * string) :=
  [("arabic", "arb_Arab"); ("cyrillic", "rus_Cyrl"); ("greek", "ell_Grek");
   ("hebrew", "heb_Hebr"); ("thai", "tha_Thai"); ("devanagari", "hin_Deva");
   ("korean", "kor_Hang"); ("japanese", "jpn_Jpan"); ("chinese", "zho_Hans")].

Fixpoint dict_lookup {V : Type} (d : list (string * V)) (k : string) : option V :=
  match d with
  | [] => None
  | (k', v) :: r => if String.eqb k k' then Some v else dict_lookup r k
  end.

(** [d.get(k, default)] *)
Definition dict_get {V : Type} (d : list (string * V)) (k : string) (default : V) : V :=
  match dict_lookup d k with
  | Some v => v
  | None => default
  end.

(** [d[k]] *)
Definition dict_index {V : Type} (d : list (string * V)) (k : string) : result V :=
  match dict_lookup d k with
  | Some v => Ok v
  | None => Raise KeyError
  end.

Definition search (pat : char -> bool) (token : pystr) : bool := existsb pat token.

(** [re.fullmatch] of a character class under [+]. *)
Definition fullmatch_plus (cls : char -> bool) (token : pystr) : bool :=
  match token with
  | [] => false
  | _ => forallb cls token
  end.

Fixpoint detect_by_script_in (patterns : list (string * (char -> bool)))
    (token : pystr) : result (option string) :=
  match patterns with
  | [] => Ok None
  | (script, pat) :: rest =>
      if search pat token
      then match dict_index SCRIPT_DEFAULT script with
           | Ok tag => Ok (Some tag)
           | Raise e => Raise e
           end
      else detect_by_script_in rest token
  end.

Definition detect_by_script (token : pystr) : result (option string) :=
  detect_by_script_in SCRIPT_PATTERNS token.

(** Truth value of an optional string: [None] and the empty string are false. *)
Definition truthy (o : option string) : bool :=
  match o with
  | Some s => negb (String.eqb s "")
  | None => false
  end.

(** ** The world of external calls *)

Record EngineCall := mkCall {
  call_text : pystr;
  call_src : string;
  call_tgt : string }.

Record World := mkWorld {
  identifier_queries : list pystr;
  engine_calls : list EngineCall }.

Definition M (A : Type) : Type := World -> result A * World.

Definition ret {A} (a : A) : M A := fun w => (Ok a, w).

Definition bind {A B} (m : M A) (k : A -> M B) : M B :=
  fun w => match m w with
           | (Ok a, w') => k a w'
           | (Raise e, w') => (Raise e, w')
           end.

Definition lift {A} (r : result A) : M A := fun w => (r, w).

Notation "x <- c ;; k" := (bind c (fun x => k))
  (at level 61, c at next level, right associativity).

Fixpoint for_each {A B} (f : A -> M B) (l : list A) : M (list B) :=
  match l with
  | [] => ret []
  | x :: r => y <- f x ;; ys <- for_each f r ;; ret (y :: ys)
  end.

(** ** Analysis results *)

Record AnalysisResult := mkAnalysis {
  words : list (pystr * string);
  languages_detected : list string;
  languages_count : Z }.

(** [collections.Counter] as an association list in insertion order. *)
Fixpoint counter_incr (counts : list (string * Z)) (k : string) : list (string * Z) :=
  match counts with
  | [] => [(k, 1%Z)]
  | (k', n) :: r =>
      if String.eqb k k' then (k', (n + 1)%Z) :: r else (k', n) :: counter_incr r k
  end.

Definition Counter (l : list string) : list (string * Z) :=
  fold_left counter_incr l [].

Definition keys {V : Type} (d : list (string * V)) : list string := map fst d.

(** [list(dict.fromkeys(l))]: the first occurrence of every element, in order. *)
Definition dict_fromkeys (l : list string) : list string :=
  fold_left (fun seen k => if tag_in k seen then seen else seen ++ [k]) l [].

(** ** Selection results: the dictionary [translate] returns; an absent key
    and the value [None] are both [None]. *)

Record SelectionResult := mkSelection {
  translation : pystr;
  analysis : option AnalysisResult;
  best_src : option string;
  best_score : option Q }.

(** [max(outputs, key=...)]: the first element whose key no later element
    exceeds. *)
Fixpoint max_from {T : Type} (key : T -> Q) (best : T) (l : list T) : T :=
  match l with
  | [] => best
  | x :: r => if Qltb (key best) (key x) then max_from key x r else max_from key best r
  end.

Definition py_max {T : Type} (key : T -> Q) (l : list T) : result T :=
  match l with
  | [] => Raise ValueError
  | x :: r => Ok (max_from key x r)
  end.

(** Lines 151-165 of model_handler.py: the source languages to try. *)
Definition candidates_of (detected : list string) : list string :=
  let candidates := [] in
  let candidates :=
    if tag_in "arb_Arab" detected then candidates ++ ["arb_Arab"] else candidates in
  let candidates := candidates ++ ["eng_Latn"] in
  if tag_in "fra_Latn" detected then candidates ++ ["fra_Latn"]
  else if tag_in "spa_Latn" detected then candidates ++ ["spa_Latn"]
  else candidates.

(** The list the loop of line 169 runs over. *)
Definition hypotheses (detected : list string) : list string :=
  dict_fromkeys (candidates_of detected).

(** [str.partition]-like split: the longest prefix whose characters all
    satisfy [p], and the rest. *)
Fixpoint span (p : char -> bool) (s : pystr) : pystr * pystr :=
  match s with
  | [] => ([], [])
  | c :: r =>
      if p c then let (tok, rest) := span p r in (c :: tok, rest) else ([], s)
  end.

Section Program.

(** The class [\w] of a Unicode pattern. *)
Variable is_word : char -> bool.

(** Whether [langdetect] could be imported. *)
Variable LANGDETECT_AVAILABLE : bool.

(** [langdetect.detect]; its answer may depend on what happened before,
    and [None] is a raised exception. *)
Variable detect : World -> pystr -> option string.

(** Tokenising, generating and decoding of [_translate_with_src], before
    the final [strip]; [None] is a raised exception. *)
Variable generate : World -> pystr -> string -> string -> option pystr.

(** *** language_detector.py *)

Definition query_identifier (token : pystr) : M (option string) :=
  fun w =>
    (Ok (detect w token),
     mkWorld (identifier_queries w ++ [token]) (engine_calls w)).

Definition detect_language (token : pystr) (fallback : string) : M string :=
  let token := strip token in
  match token with
  | [] => ret fallback
  | _ =>
      script_lang <- lift (detect_by_script token) ;;
      let otherwise :=
        if fullmatch_plus LATIN_RE token && (len token <=? 3)%Z
        then ret fallback
        else if LANGDETECT_AVAILABLE && (4 <=? len token)%Z
        then
          answer <- query_identifier token ;;
          match answer with
          | Some code => ret (dict_get MAP code fallback)
          | None => ret fallback
          end
        else ret fallback in
      match script_lang with
      | Some tag => if truthy script_lang then ret tag else otherwise
      | None => otherwise
      end
  end.

Definition is_punct_char (c : char) : bool :=
  negb (is_word c) && negb (is_space c).

(** [re.findall(r"\w+|[^\w\s]+|\s+", text)]: at each position the first
    alternative that matches takes the longest run it can. Every character
    is matched by one of the three, so nothing is skipped. *)
Fixpoint findall_fuel (fuel : nat) (text : pystr) : list pystr :=
  match fuel, text with
  | _, [] => []
  | O, _ => []
  | S fuel', c :: _ =>
      let alternative :=
        if is_word c then is_word
        else if is_punct_char c then is_punct_char
        else is_space in
      let (tok, rest) := span alternative text in
      tok :: findall_fuel fuel' rest
  end.

Definition findall_tokens (text : pystr) : list pystr :=
  findall_fuel (List.length text) text.

(** The loop of [analyze_words], with its two variables. *)
Fixpoint tag_tokens (tokens : list pystr) (words : list (pystr * string))
    (context_lang : string) : M (list (pystr * string)) :=
  match tokens with
  | [] => ret words
  | tok :: rest =>
      if isspace tok then tag_tokens rest words context_lang
      else if fullmatch_plus is_punct_char tok
      then tag_tokens rest (words ++ [(tok, "punct")]) context_lang
      else
        lang <- detect_language tok context_lang ;;
        tag_tokens rest (words ++ [(tok, lang)]) lang
  end.

Definition empty_analysis : AnalysisResult := mkAnalysis [] [] 0.

Definition analyze_words (text : pystr) : M AnalysisResult :=
  if is_empty text || is_empty (strip text) then ret empty_analysis
  else
    let tokens := findall_tokens text in
    words <- tag_tokens tokens [] "eng_Latn" ;;
    let langs :=
      map snd (filter (fun w => negb (String.eqb (snd w) "punct")) words) in
    let counts := Counter langs in
    ret (mkAnalysis words (keys counts) (Z.of_nat (List.length counts))).

(** *** model_handler.py *)

Definition _translate_with_src (text : pystr) (src_lang tgt_lang : string)
    : M pystr :=
  fun w =>
    let w' := mkWorld (identifier_queries w)
                      (engine_calls w ++ [mkCall text src_lang tgt_lang]) in
    match generate w text src_lang tgt_lang with
    | Some decoded => (Ok (strip decoded), w')
    | None => (Raise EngineError, w')
    end.

Definition score_key (x : pystr * Q * string) : Q := snd (fst x).

(** The loop of lines 167-171: one engine call and one score per source
    language. *)
Definition translate_candidates (text : pystr) (target_lang_code : string)
    (sources : list string) : M (list (pystr * Q * string)) :=
  for_each
    (fun src =>
       out <- _translate_with_src text src target_lang_code ;;
       score <- lift (score_translation text out target_lang_code) ;;
       ret (out, score, src))
    sources.

(** [translate]; loading the model on first use is left out. *)
Definition translate (text : pystr) (target_lang_code : string)
    : M SelectionResult :=
  let text := normalize text in
  if is_empty text then ret (mkSelection [] None None None)
  else
    analysis <- analyze_words text ;;
    let detected := languages_detected analysis in
    outputs <- translate_candidates text target_lang_code (hypotheses detected) ;;
    best <- lift (py_max score_key outputs) ;;
    let '(best_translation, best_score, best_src) := best in
    ret (mkSelection best_translation (Some analysis) (Some best_src)
                     (Some (round3 best_score))).

End Program.

(** ** language_config.py *)

Definition LANGUAGES : list (string * string) :=
  [("Arabic", "arb_Arab"); ("English", "eng_Latn"); ("Spanish", "spa_Latn");
   ("French", "fra_Latn"); ("German", "deu_Latn"); ("Italian", "ita_Latn");
   ("Portuguese", "por_Latn"); ("Russian", "rus_Cyrl");
   ("Chinese (Simplified)", "zho_Hans");
   ("Chinese (Traditional)", "zho_Hant"); ("Japanese", "jpn_Jpan");
   ("Korean", "kor_Hang"); ("Hindi", "hin_Deva"); ("Bengali", "ben_Beng");
   ("Urdu", "urd_Arab"); ("Vietnamese", "vie_Latn"); ("Thai", "tha_Thai");
   ("Indonesian", "ind_Latn"); ("Malay", "zsm_Latn"); ("Tamil", "tam_Taml");
   ("Telugu", "tel_Telu"); ("Turkish", "tur_Latn"); ("Dutch", "nld_Latn");
   ("Polish", "pol_Latn"); ("Swedish", "swe_Latn"); ("Greek", "ell_Grek");
   ("Czech", "ces_Latn"); ("Romanian", "ron_Latn");
   ("Hungarian", "hun_Latn"); ("Ukrainian", "ukr_Cyrl");
   ("Danish", "dan_Latn"); ("Finnish", "fin_Latn");
   ("Norwegian", "nob_Latn"); ("Persian", "pes_Arab");
   ("Hebrew", "heb_Hebr"); ("Swahili", "swh_Latn"); ("Amharic", "amh_Ethi");
   ("Hausa", "hau_Latn"); ("Yoruba", "yor_Latn"); ("Somali", "som_Latn");
   ("Catalan", "cat_Latn"); ("Slovak", "slk_Latn");
   ("Bulgarian", "bul_Cyrl"); ("Croatian", "hrv_Latn");
   ("Serbian", "srp_Cyrl"); ("Lithuanian", "lit_Latn");
   ("Latvian", "lvs_Latn"); ("Estonian", "est_Latn");
   ("Slovenian", "slv_Latn")].

(** [d[k] = v]: an existing key keeps its place, a new one goes last. *)
Fixpoint dict_set {V : Type} (d : list (string * V)) (k : string) (v : V)
    : list (string * V) :=
  match d with
  | [] => [(k, v)]
  | (k', v') :: r =>
      if String.eqb k k' then (k', v) :: r else (k', v') :: dict_set r k v
  end.

(** [{code: name for name, code in LANGUAGES.items()}] *)
Definition CODE_TO_LANGUAGE : list (string * string) :=
  fold_left (fun d (item : string * string) => dict_set d (snd item) (fst item))
    LANGUAGES [].

(** [LANGUAGES.get(language_name)]; [None] is Python's [None]. *)
Definition get_language_code (language_name : string) : option string :=
  dict_lookup LANGUAGES language_name.

Definition get_language_name_from_code (code : string) : string :=
  dict_get CODE_TO_LANGUAGE code code.

(** [sorted] on strings: the order is the order of code points; equal
    elements keep their order. *)
Fixpoint insert_sorted (x : string) (l : list string) : list string :=
  match l with
  | [] => [x]
  | y :: r => if String.leb x y then x :: l else y :: insert_sorted x r
  end.

Fixpoint sorted (l : list string) : list string :=
  match l with
  | [] => []
  | x :: r => insert_sorted x (sorted r)
  end.

Definition get_all_language_names : list string := sorted (keys LANGUAGES).

(** ** Concrete parameters for examples *)

(** The ASCII part of [\w]: letters, digits and the underscore, and the
    letters of the Arabic block. *)
Definition ascii_word (c : char) : bool :=
  in_range 48 57 c || in_range 65 90 c || (c =? 95)%Z || in_range 97 122 c
  || in_range 1569 1610 c.

Definition w0 : World := mkWorld [] [].

(** ** Reference notions the properties are stated with *)

(** The distinct elements of a list in the order of their first occurrence. *)
Fixpoint first_occurrences (l : list string) : list string :=
  match l with
  | [] => []
  | x :: r => x :: filter (fun y => negb (String.eqb y x)) (first_occurrences r)
  end.

(** The step of [dict.fromkeys] and of filling a [Counter], on the keys. *)
Definition add_key (seen : list string) (k : string) : list string :=
  if tag_in k seen then seen else seen ++ [k].

(** The tags the tagger can produce from a script. *)
Definition script_tags : list string := map snd SCRIPT_DEFAULT.

(** Whether no recognised script occurs in the token. *)
Definition no_script (token : pystr) : bool :=
  match detect_by_script token with
  | Ok None => true
  | _ => false
  end.

(** The world after one more query of the identifier. *)
Definition asked (w : World) (token : pystr) : World :=
  mkWorld (identifier_queries w ++ [token]) (engine_calls w).

(** A tagged word is well tagged when it carries the punctuation marker
    exactly if its token is a run of punctuation. *)
Definition well_tagged (is_word : char -> bool) (x : pystr * string) : Prop :=
  snd x = "punct" <-> fullmatch_plus (is_punct_char is_word) (fst x) = true.

(** The tags of the words that are not punctuation, in text order. *)
Definition word_tags (is_word : char -> bool) (tagged : list (pystr * string))
    : list string :=
  map snd
    (filter (fun x => negb (fullmatch_plus (is_punct_char is_word) (fst x)))
       tagged).

(** The parts of a candidate of the selection loop. *)
Definition cand_out (x : pystr * Q * string) : pystr := fst (fst x).
Definition cand_src (x : pystr * Q * string) : string := snd x.

(** The result [translate] returns for empty input. *)
Definition empty_selection : SelectionResult := mkSelection [] None None None.

(** A candidate is sound when its score is the score of its translation
    and its translation is what the engine answered, stripped. *)
Definition candidate_ok
    (generate : World -> pystr -> string -> string -> option pystr)
    (text : pystr) (tgt : string) (x : pystr * Q * string) : Prop :=
  score_translation text (cand_out x) tgt = Ok (score_key x)
  /\ exists w d, generate w text (cand_src x) tgt = Some d /\ cand_out x = strip d.

(** An engine that answers nothing but blanks, and one with fixed answers. *)
Definition blank_engine (w : World) (text : pystr) (src tgt : string)
    : option pystr := Some (lit "  ").

Definition sample_engine (w : World) (text : pystr) (src tgt : string)
    : option pystr :=
  Some (if String.eqb src "fra_Latn" then lit " Hello world. "
        else lit "Hello the monde").

(** An engine that repeats its input. *)
Definition echo_engine (w : World) (text : pystr) (src tgt : string)
    : option pystr := Some text.

Definition sample_detect (w : World) (token : pystr) : option string :=
  if (len token =? 7)%Z then Some "fr" else None.

(** Whether every whitespace character of a string is one U+0020 standing
    alone; [after_space] tells that the character before was whitespace. *)
Fixpoint single_spaced (after_space : bool) (s : pystr) : bool :=
  match s with
  | [] => true
  | c :: r =>
      if is_space c
      then (c =? 32)%Z && negb after_space && single_spaced true r
      else single_spaced false r
  end.

(** The characters of a string that are not whitespace. *)
Definition ink (s : pystr) : pystr := filter (fun c => negb (is_space c)) s.

(** Whether a token makes [analyze_words] ask the identifier: a word of at
    least four characters, stripped, with no character of a recognised
    script, met while the identifier is available. *)
Definition asks (is_word : char -> bool) (available : bool) (tok : pystr) : bool :=
  negb (isspace tok) && negb (fullmatch_plus (is_punct_char is_word) tok)
  && available && (4 <=? len (strip tok))%Z && no_script (strip tok).

(** A code of the registry of language_config.py. *)
Definition registered (tag : string) : bool := tag_in tag (map snd LANGUAGES).

(** A token is homogeneous when one alternative of the pattern matches all
    its characters. *)
Definition homogeneous (is_word : char -> bool) (tok : pystr) : Prop :=
  forallb is_word tok = true
  \/ forallb (is_punct_char is_word) tok = true
  \/ forallb is_space tok = true.

(** Powers of two used by the rounding lemmas. *)
Definition p52 : Q := inject_Z 4503599627370496.
Definition p53 : Q := inject_Z 9007199254740992.
Definition eps53 : Q := 1 # 9007199254740992.
Definition eps52 : Q := 1 # 4503599627370496.

(** The rounding allowance of the score for texts of at most a million
    characters: 2^-30. *)
Definition score_tolerance : Q := 1 # 1073741824.

(** An engine that answers blanks when the source is taken to be English
    and repeats its input otherwise. *)
Definition blank_for_english_engine (w : World) (text : pystr) (src tgt : string)
    : option pystr :=
  if String.eqb src "eng_Latn" then Some (lit "  ") else Some text.

(** An engine whose two answers score 0.7 and 0.7000000000000001. *)
Definition near_tie_engine (w : World) (text : pystr) (src tgt : string)
    : option pystr :=
  Some (if String.eqb src "fra_Latn"
        then [1587; 1604; 1575; 1605; 1575; 97; 98; 99]%Z
        else lit "abcdefg").

(** * Properties *)

(** ** Whitespace, stripping and normalisation *)

Lemma is_empty_true (s : pystr) : is_empty s = true <-> s = [].
Proof. destruct s; simpl; split; intro H; congruence. Qed.

Lemma is_empty_false (s : pystr) : is_empty s = false <-> s <> [].
Proof. destruct s; simpl; split; intro H; congruence. Qed.

Lemma lstrip_blank (s : pystr) : forallb is_space s = true -> lstrip s = [].
Proof.
  induction s as [|c r IH]; simpl; [reflexivity|].
  intro H. apply andb_true_iff in H as [Hc Hr]. rewrite Hc. auto.
Qed.

(** What [lstrip] leaves is empty or starts with a character that is not
    whitespace. *)
Lemma lstrip_head (s : pystr) :
  lstrip s = [] \/ exists c r, lstrip s = c :: r /\ is_space c = false.
Proof.
  induction s as [|c r IH]; simpl; [now left|].
  destruct (is_space c) eqn:Hc; [exact IH|].
  right. exists c, r. auto.
Qed.

Lemma lstrip_incl (s : pystr) (c : char) : In c (lstrip s) -> In c s.
Proof.
  induction s as [|d r IH]; simpl; [tauto|].
  destruct (is_space d); simpl; auto.
Qed.

Lemma lstrip_keeps (s : pystr) (c : char) :
  In c s -> is_space c = false -> In c (lstrip s).
Proof.
  induction s as [|d r IH]; simpl; [tauto|].
  intros [->|Hin] Hc.
  - rewrite Hc. now left.
  - destruct (is_space d); [auto | now right].
Qed.

Lemma strip_keeps (s : pystr) (c : char) :
  In c s -> is_space c = false -> In c (strip s).
Proof.
  intros Hin Hc. unfold strip, rstrip.
  apply -> in_rev. apply lstrip_keeps; [|exact Hc].
  apply -> in_rev. apply lstrip_keeps; assumption.
Qed.

Lemma strip_incl (s : pystr) (c : char) : In c (strip s) -> In c s.
Proof.
  unfold strip, rstrip. intro H.
  apply in_rev, lstrip_incl, in_rev in H.
  apply lstrip_incl. exact H.
Qed.

Lemma strip_blank (s : pystr) : forallb is_space s = true -> strip s = [].
Proof. intro H. unfold strip. rewrite lstrip_blank by exact H. reflexivity. Qed.

(** A stripped string that is not empty holds a character that is not
    whitespace. *)
Lemma strip_nonempty_has_ink (s : pystr) :
  strip s <> [] -> exists c, In c (strip s) /\ is_space c = false.
Proof.
  unfold strip, rstrip. intro H.
  destruct (lstrip_head (rev (lstrip s))) as [E | (c & r & E & Hc)].
  - rewrite E in H. now contradiction H.
  - exists c. split; [|exact Hc]. rewrite E. apply -> in_rev. now left.
Qed.

Lemma sub_ws_blank (b : bool) (s : pystr) :
  forallb is_space s = true -> forallb is_space (sub_ws b s) = true.
Proof.
  revert b. induction s as [|c r IH]; intros b H; simpl; [reflexivity|].
  simpl in H. apply andb_true_iff in H as [Hc Hr]. rewrite Hc.
  destruct b; simpl; auto.
Qed.

Lemma sub_ws_keeps (b : bool) (s : pystr) (c : char) :
  In c s -> is_space c = false -> In c (sub_ws b s).
Proof.
  revert b. induction s as [|d r IH]; intros b Hin Hc; simpl in *; [tauto|].
  destruct Hin as [->|Hin].
  - rewrite Hc. now left.
  - destruct (is_space d); [destruct b|]; simpl; auto.
Qed.

Lemma sub_ws_incl (b : bool) (s : pystr) (c : char) :
  In c (sub_ws b s) -> is_space c = false -> In c s.
Proof.
  revert b. induction s as [|d r IH]; intros b Hin Hc; simpl in *; [tauto|].
  destruct (is_space d) eqn:Hd.
  - destruct b; simpl in Hin.
    + right. eauto.
    + destruct Hin as [<-|Hin]; [discriminate Hc | right; eauto].
  - destruct Hin as [->|Hin]; [now left | right; eauto].
Qed.

Lemma normalize_blank (s : pystr) : forallb is_space s = true -> normalize s = [].
Proof.
  intro H. unfold normalize. destruct (is_empty s); [reflexivity|].
  apply strip_blank, sub_ws_blank, H.
Qed.

Lemma normalize_keeps (s : pystr) (c : char) :
  In c s -> is_space c = false -> In c (normalize s).
Proof.
  intros Hin Hc. unfold normalize.
  destruct s as [|d r]; [destruct Hin|]. cbn [is_empty].
  apply strip_keeps; [|exact Hc]. apply sub_ws_keeps; assumption.
Qed.

Lemma forallb_or_witness (p : char -> bool) (s : pystr) :
  forallb p s = true \/ exists c, In c s /\ p c = false.
Proof.
  induction s as [|d r [IH | (c & Hin & Hc)]]; simpl.
  - now left.
  - destruct (p d) eqn:Hd; [now left|]. right. exists d. auto.
  - right. exists c. auto.
Qed.

(** The normal form is empty exactly for blank text. *)
Lemma normalize_empty_iff (s : pystr) :
  normalize s = [] <-> forallb is_space s = true.
Proof.
  split; [|apply normalize_blank].
  intro H. destruct (forallb_or_witness is_space s) as [Hb | (c & Hin & Hc)];
    [exact Hb|].
  apply (normalize_keeps s c Hin) in Hc. rewrite H in Hc. destruct Hc.
Qed.

Lemma normalize_strip_nonempty (s : pystr) :
  strip s <> [] -> normalize (strip s) <> [].
Proof.
  intros H E. destruct (strip_nonempty_has_ink s H) as (c & Hin & Hc).
  apply (normalize_keeps _ c Hin) in Hc. rewrite E in Hc. destruct Hc.
Qed.

Lemma last_char_ok (s : pystr) :
  s <> [] -> exists c, last_char s = Ok c /\ c = last s 0%Z.
Proof.
  intro H. destruct (exists_last H) as (r & c & ->).
  exists c. unfold last_char. rewrite rev_app_distr. simpl.
  split; [reflexivity|]. now rewrite last_last.
Qed.

Lemma last_char_empty : last_char [] = Raise IndexError.
Proof. reflexivity. Qed.

(** ** Leftover scripts *)

Lemma count_matches_app (re : char -> bool) (a b : pystr) :
  count_matches re (a ++ b) = (count_matches re a + count_matches re b)%Z.
Proof. unfold count_matches. rewrite filter_app, length_app. lia. Qed.

Lemma count_matches_cons (re : char -> bool) (c : char) (s : pystr) :
  count_matches re (c :: s)
  = ((if re c then 1 else 0) + count_matches re s)%Z.
Proof.
  unfold count_matches. cbn [filter]. destruct (re c); cbn [List.length];
    rewrite ?Nat2Z.inj_succ; lia.
Qed.

Lemma count_matches_nonneg (re : char -> bool) (s : pystr) :
  (0 <= count_matches re s)%Z.
Proof. unfold count_matches. lia. Qed.

Lemma latin_is_no_other_script (c : char) :
  LATIN_RE c = true ->
  ARABIC_RE c = false /\ CYRILLIC_RE c = false /\ CJK_RE c = false.
Proof.
  unfold LATIN_RE, ARABIC_RE, CYRILLIC_RE, CJK_RE, in_range. intro H.
  repeat split; apply andb_false_iff; lia.
Qed.

Lemma listed_latin_target (tgt : string) :
  tag_in tgt latin_targets = true ->
  tag_in tgt arabic_targets = false.
Proof.
  unfold tag_in, latin_targets. simpl. intro H.
  repeat (apply orb_true_iff in H as [H|H]);
    try (apply String.eqb_eq in H; subst tgt; reflexivity).
  discriminate H.
Qed.

(** C4: the code departs from it. Polish is a target of the registry, a
    Latin-script language the list of the Latin branch leaves out: its tag
    falls to the default branch, which counts the Latin letters. For the
    translation [abc], which holds no Arabic, Cyrillic or CJK character, the
    count is 3 and not 0, the score is 0.94 where it is 1 for English, and
    that score is what [translate] reports when the engine answers [abc]. *)
Theorem leftover_polish_counts_latin :
  get_language_code "Polish" = Some "pol_Latn"
  /\ tag_in "pol_Latn" latin_targets = false
  /\ (count_matches ARABIC_RE (lit "abc") + count_matches CYRILLIC_RE (lit "abc")
      + count_matches CJK_RE (lit "abc"))%Z = 0%Z
  /\ count_matches LATIN_RE (lit "abc") = 3%Z
  /\ count_leftover_scripts (lit "abc") "pol_Latn" = 3%Z
  /\ count_leftover_scripts (lit "abc") "eng_Latn" = 0%Z
  /\ score_translation (lit "abc") (lit "abc") "pol_Latn"
     = Ok (float_lit (94 # 100))
  /\ score_translation (lit "abc") (lit "abc") "eng_Latn" = Ok (float_lit 1)
  /\ (exists r w',
        translate ascii_word true sample_detect echo_engine (lit "abc")
          "pol_Latn" w0 = (Ok r, w')
        /\ translation r = lit "abc"
        /\ best_score r = Some (float_lit (94 # 100))).
Proof.
  repeat (split; [vm_compute; reflexivity|]).
  destruct (translate ascii_word true sample_detect echo_engine (lit "abc")
              "pol_Latn" w0) as [res w'] eqn:E.
  vm_compute in E. injection E as <- <-.
  do 2 eexists. split; [reflexivity|]. split; vm_compute; reflexivity.
Qed.

(** For each of the eight Latin-script targets the code lists and every
    text that is not empty, the leftover count is the number of Arabic plus
    Cyrillic plus CJK characters, and it does not change when a Latin letter
    is added anywhere; for the empty text it is 999. *)
Lemma leftover_listed_latin_target (tgt : string) (text : pystr) :
  tag_in tgt latin_targets = true ->
  count_leftover_scripts [] tgt = 999%Z
  /\ (text <> [] ->
      count_leftover_scripts text tgt
      = (count_matches ARABIC_RE text + count_matches CYRILLIC_RE text
         + count_matches CJK_RE text)%Z)
  /\ (forall a b c, text = a ++ b -> text <> [] -> LATIN_RE c = true ->
      count_leftover_scripts (a ++ c :: b) tgt = count_leftover_scripts text tgt).
Proof.
  intro H. pose proof (listed_latin_target tgt H) as Ha.
  assert (E : forall s, s <> [] ->
            count_leftover_scripts s tgt
            = (count_matches ARABIC_RE s + count_matches CYRILLIC_RE s
               + count_matches CJK_RE s)%Z).
  { intros s Hs. unfold count_leftover_scripts.
    apply is_empty_false in Hs. rewrite Hs, Ha, H. reflexivity. }
  split; [reflexivity|]. split; [apply E|].
  intros a b c -> Hne Hc.
  rewrite (E (a ++ b) Hne), (E (a ++ c :: b)) by (destruct a; discriminate).
  destruct (latin_is_no_other_script c Hc) as (H1 & H2 & H3).
  rewrite !count_matches_app, !count_matches_cons, H1, H2, H3. reflexivity.
Qed.

Lemma leftover_listed_latin_target_witness :
  count_leftover_scripts [] "fra_Latn" = 999%Z
  /\ (lit "ab" <> [] ->
      count_leftover_scripts (lit "ab") "fra_Latn"
      = (count_matches ARABIC_RE (lit "ab") + count_matches CYRILLIC_RE (lit "ab")
         + count_matches CJK_RE (lit "ab"))%Z)
  /\ (forall a b c, lit "ab" = a ++ b -> lit "ab" <> [] -> LATIN_RE c = true ->
      count_leftover_scripts (a ++ c :: b) "fra_Latn"
      = count_leftover_scripts (lit "ab") "fra_Latn").
Proof. apply (leftover_listed_latin_target "fra_Latn" (lit "ab")). reflexivity. Defined.

Lemma count_disjoint3 (p q r : char -> bool) (s : pystr) :
  (forall c, ((if p c then 1 else 0) + (if q c then 1 else 0)
              + (if r c then 1 else 0) <= 1)%Z) ->
  (0 <= count_matches p s + count_matches q s + count_matches r s <= len s)%Z.
Proof.
  intro H. induction s as [|c t IH].
  - unfold count_matches, len. simpl. lia.
  - rewrite !count_matches_cons. specialize (H c). unfold len in *.
    cbn [List.length]. rewrite Nat2Z.inj_succ.
    destruct (p c), (q c), (r c); lia.
Qed.

Lemma count_matches_never (s : pystr) : count_matches (fun _ => false) s = 0%Z.
Proof. unfold count_matches. induction s; simpl; auto. Qed.

Ltac script_ranges :=
  intro c; unfold LATIN_RE, ARABIC_RE, CYRILLIC_RE, CJK_RE, in_range;
  repeat match goal with
         | |- context [if ?b then _ else _] => destruct b eqn:?
         end; lia.

Lemma leftover_within_length (text : pystr) (tgt : string) :
  text <> [] -> (0 <= count_leftover_scripts text tgt <= len text)%Z.
Proof.
  intro H. unfold count_leftover_scripts. apply is_empty_false in H. rewrite H.
  repeat match goal with
         | |- context [if tag_in tgt ?l then _ else _] => destruct (tag_in tgt l)
         end.
  - apply count_disjoint3. script_ranges.
  - apply count_disjoint3. script_ranges.
  - apply count_disjoint3. script_ranges.
  - apply count_disjoint3. script_ranges.
  - assert (D : (0 <= count_matches LATIN_RE text + count_matches ARABIC_RE text
                     + count_matches (fun _ => false) text <= len text)%Z)
      by (apply count_disjoint3; script_ranges).
    rewrite count_matches_never in D. lia.
Qed.

(** ** Source hypotheses *)

Lemma tag_in_In (t : string) (l : list string) : tag_in t l = true <-> In t l.
Proof.
  unfold tag_in. rewrite existsb_exists. split.
  - intros (x & Hin & E). apply String.eqb_eq in E. now subst.
  - intro H. exists t. split; [exact H | apply String.eqb_refl].
Qed.

Ltac case_detected detected :=
  unfold hypotheses, candidates_of;
  destruct (tag_in "arb_Arab" detected);
  destruct (tag_in "fra_Latn" detected);
  destruct (tag_in "spa_Latn" detected);
  vm_compute.

(** C1: whatever was detected, the list of source hypotheses has between one
    and three entries, no entry twice, Arabic first when Arabic was detected
    (and absent otherwise), English always, French when French was detected,
    otherwise Spanish when Spanish was detected, and never both. *)
Theorem hypotheses_shape (detected : list string) :
  let h := hypotheses detected in
  (1 <= List.length h <= 3)%nat
  /\ NoDup h
  /\ (if tag_in "arb_Arab" detected then hd_error h = Some "arb_Arab"
      else ~ In "arb_Arab" h)
  /\ In "eng_Latn" h
  /\ (if tag_in "fra_Latn" detected then In "fra_Latn" h
      else if tag_in "spa_Latn" detected then In "spa_Latn" h
      else ~ In "fra_Latn" h /\ ~ In "spa_Latn" h)
  /\ ~ (In "fra_Latn" h /\ In "spa_Latn" h).
Proof.
  cbv zeta. case_detected detected;
    (split; [lia|]); (split; [repeat constructor; simpl; intuition discriminate|]);
    intuition (try discriminate; try congruence).
Qed.

Lemma hypotheses_nonempty (detected : list string) : hypotheses detected <> [].
Proof. case_detected detected; discriminate. Qed.

(** ** Binary64 rounding *)

Local Open Scope Q_scope.

Lemma inject_Z_succ (n : Z) : inject_Z (n + 1) == inject_Z n + 1.
Proof. rewrite inject_Z_plus. reflexivity. Qed.

Lemma rhe_cases (q : Q) :
  round_half_even q = Qfloor q \/ round_half_even q = (Qfloor q + 1)%Z.
Proof.
  unfold round_half_even.
  destruct (Qcompare (q - inject_Z (Qfloor q)) (1 # 2)); auto.
  destruct (Z.even (Qfloor q)); auto.
Qed.

Lemma rhe_near (q : Q) :
  inject_Z (round_half_even q) - (1 # 2) <= q
  /\ q <= inject_Z (round_half_even q) + (1 # 2).
Proof.
  pose proof (Qfloor_le q) as Hlo. pose proof (Qlt_floor q) as Hhi.
  rewrite inject_Z_succ in Hhi. unfold round_half_even.
  destruct (Qcompare_spec (q - inject_Z (Qfloor q)) (1 # 2)) as [E|E|E].
  - destruct (Z.even (Qfloor q)); rewrite ?inject_Z_succ; lra.
  - lra.
  - rewrite inject_Z_succ. lra.
Qed.

Lemma rhe_monotone (x y : Q) :
  x <= y -> (round_half_even x <= round_half_even y)%Z.
Proof.
  intro H. pose proof (Qfloor_resp_le x y H) as Hf.
  destruct (Z.eq_dec (Qfloor x) (Qfloor y)) as [E|E].
  - unfold round_half_even. rewrite E.
    destruct (Qcompare_spec (x - inject_Z (Qfloor y)) (1 # 2)) as [Ex|Ex|Ex];
      destruct (Qcompare_spec (y - inject_Z (Qfloor y)) (1 # 2)) as [Ey|Ey|Ey];
      try (destruct (Z.even (Qfloor y))); try lia; exfalso; lra.
  - destruct (rhe_cases x) as [-> | ->]; destruct (rhe_cases y) as [-> | ->]; lia.
Qed.

Lemma rhe_integer (n : Z) : round_half_even (inject_Z n) = n.
Proof.
  unfold round_half_even. rewrite Qfloor_Z.
  destruct (Qcompare_spec (inject_Z n - inject_Z n) (1 # 2)) as [E|E|E];
    try reflexivity; exfalso; lra.
Qed.

Lemma pow2_pos (e : Z) : 0 < 2 ^ e.
Proof. apply Qpower_0_lt. reflexivity. Qed.

Lemma pow2_plus (a b : Z) : 2 ^ (a + b) == 2 ^ a * 2 ^ b.
Proof. apply Qpower_plus. discriminate. Qed.

Lemma pow2_succ (e : Z) : 2 ^ (e + 1) == 2 * 2 ^ e.
Proof. rewrite pow2_plus. change (2 ^ 1) with 2. ring. Qed.

Lemma pow2_le (a b : Z) : (a <= b)%Z -> 2 ^ a <= 2 ^ b.
Proof. intro H. apply Qpower_le_compat_l; [exact H | discriminate]. Qed.

Lemma pow2_Z (n : Z) : (0 <= n)%Z -> 2 ^ n == inject_Z (2 ^ n).
Proof. intro H. rewrite Zpower_Qpower by exact H. reflexivity. Qed.

Lemma Qdiv_lt_cross (a b c d : Q) :
  0 < b -> 0 < d -> a * d < c * b -> a / b < c / d.
Proof.
  intros Hb Hd H. apply Qlt_shift_div_l; [exact Hd|].
  unfold Qdiv. rewrite <- Qmult_assoc, (Qmult_comm (/ b)), Qmult_assoc.
  apply Qlt_shift_div_r; assumption.
Qed.

Lemma Qdiv_le_cross (a b c d : Q) :
  0 < b -> 0 < d -> a * d <= c * b -> a / b <= c / d.
Proof.
  intros Hb Hd H. apply Qle_shift_div_l; [exact Hd|].
  unfold Qdiv. rewrite <- Qmult_assoc, (Qmult_comm (/ b)), Qmult_assoc.
  apply Qle_shift_div_r; assumption.
Qed.

Lemma floor_log2_spec (a : Q) :
  0 < a -> 2 ^ floor_log2 a <= a /\ a < 2 ^ (floor_log2 a + 1).
Proof.
  intro Ha. destruct a as [n d]. unfold floor_log2. cbn [Qnum Qden].
  assert (Hn : (0 < n)%Z) by (unfold Qlt in Ha; simpl in Ha; lia).
  pose proof (Z.log2_spec n Hn) as [Hn1 Hn2].
  pose proof (Z.log2_spec (Zpos d) (Pos2Z.is_pos d)) as [Hd1 Hd2].
  pose proof (Z.log2_nonneg n) as Hln. pose proof (Z.log2_nonneg (Zpos d)) as Hld.
  set (ln := Z.log2 n) in *. set (ld := Z.log2 (Zpos d)) in *.
  assert (Hpn : (0 < 2 ^ ln)%Z) by (apply Z.pow_pos_nonneg; lia).
  assert (Hpd : (0 < 2 ^ ld)%Z) by (apply Z.pow_pos_nonneg; lia).
  assert (Ea : n # d == inject_Z n / inject_Z (Zpos d)) by apply Qmake_Qdiv.
  assert (Hqd : 0 < inject_Z (Zpos d)) by reflexivity.
  assert (Hup : n # d < 2 ^ (ln - ld + 1)).
  { replace (ln - ld + 1)%Z with (Z.succ ln - ld)%Z by lia.
    rewrite Qpower_minus by discriminate.
    rewrite (pow2_Z (Z.succ ln)), (pow2_Z ld) by lia. rewrite Ea.
    apply Qdiv_lt_cross; [exact Hqd | |].
    - change 0 with (inject_Z 0). rewrite <- Zlt_Qlt. exact Hpd.
    - rewrite <- !inject_Z_mult, <- Zlt_Qlt. nia. }
  assert (Hlo : 2 ^ (ln - ld - 1) <= n # d).
  { replace (ln - ld - 1)%Z with (ln - Z.succ ld)%Z by lia.
    rewrite Qpower_minus by discriminate.
    rewrite (pow2_Z ln), (pow2_Z (Z.succ ld)) by lia. rewrite Ea.
    apply Qdiv_le_cross; [| exact Hqd |].
    - change 0 with (inject_Z 0). rewrite <- Zlt_Qlt. lia.
    - rewrite <- !inject_Z_mult, <- Zle_Qle. nia. }
  destruct (Qle_bool (2 ^ (ln - ld)) (n # d)) eqn:E.
  - apply Qle_bool_iff in E. split; assumption.
  - split; [exact Hlo|].
    replace (ln - ld - 1 + 1)%Z with (ln - ld)%Z by lia.
    apply Qnot_le_lt. intro H. apply Qle_bool_iff in H. congruence.
Qed.

Lemma floor_log2_monotone (x y : Q) :
  0 < x -> x <= y -> (floor_log2 x <= floor_log2 y)%Z.
Proof.
  intros Hx Hxy.
  destruct (floor_log2_spec x Hx) as [Hx1 _].
  destruct (floor_log2_spec y (Qlt_le_trans _ _ _ Hx Hxy)) as [_ Hy2].
  destruct (Z_le_gt_dec (floor_log2 x) (floor_log2 y)) as [H|H]; [exact H|].
  exfalso. assert (Hp : 2 ^ (floor_log2 y + 1) <= 2 ^ floor_log2 x)
    by (apply pow2_le; lia).
  lra.
Qed.

Lemma pow2_52 : 2 ^ 52 == p52.
Proof. reflexivity. Qed.

Lemma pow2_53 : 2 ^ 53 == p53.
Proof. reflexivity. Qed.

(** The scaled value lies between 2^52 and 2^53. *)
Lemma scaled_range (a : Q) :
  0 < a ->
  let u := 2 ^ (floor_log2 a - 52) in
  0 < u /\ p52 <= a / u /\ a / u < p53
  /\ 2 ^ floor_log2 a == p52 * u
  /\ 2 ^ (floor_log2 a + 1) == p53 * u.
Proof.
  intros Ha u. destruct (floor_log2_spec a Ha) as [H1 H2].
  assert (Hu : 0 < u) by apply pow2_pos.
  assert (E1 : 2 ^ floor_log2 a == p52 * u).
  { unfold u. rewrite <- pow2_52. rewrite <- pow2_plus.
    now replace (52 + (floor_log2 a - 52))%Z with (floor_log2 a) by lia. }
  assert (E2 : 2 ^ (floor_log2 a + 1) == p53 * u).
  { unfold u. rewrite <- pow2_53. rewrite <- pow2_plus.
    now replace (53 + (floor_log2 a - 52))%Z with (floor_log2 a + 1)%Z by lia. }
  split; [exact Hu|]. split; [|split; [|split; assumption]].
  - apply Qle_shift_div_l; [exact Hu|]. now rewrite <- E1.
  - apply Qlt_shift_div_r; [exact Hu|]. now rewrite <- E2.
Qed.

Lemma round_pos_range (a : Q) :
  0 < a -> 2 ^ floor_log2 a <= round_pos a /\ round_pos a <= 2 ^ (floor_log2 a + 1).
Proof.
  intro Ha. destruct (scaled_range a Ha) as (Hu & Hlo & Hhi & E1 & E2).
  unfold round_pos. set (u := 2 ^ (floor_log2 a - 52)) in *.
  pose proof (rhe_monotone _ _ Hlo) as M1.
  unfold p52 in M1. rewrite rhe_integer in M1.
  pose proof (rhe_monotone _ _ (Qlt_le_weak _ _ Hhi)) as M2.
  unfold p53 in M2. rewrite rhe_integer in M2.
  rewrite E1, E2. unfold p52, p53.
  split; apply Qmult_le_compat_r;
    try (apply Qlt_le_weak, Hu); rewrite <- Zle_Qle; assumption.
Qed.

Lemma round_pos_monotone (x y : Q) :
  0 < x -> x <= y -> round_pos x <= round_pos y.
Proof.
  intros Hx Hxy. assert (Hy : 0 < y) by (eapply Qlt_le_trans; eauto).
  pose proof (floor_log2_monotone x y Hx Hxy) as He.
  destruct (Z.eq_dec (floor_log2 x) (floor_log2 y)) as [E|E].
  - unfold round_pos. rewrite E.
    pose proof (pow2_pos (floor_log2 y - 52)) as Hu.
    apply Qmult_le_compat_r; [|now apply Qlt_le_weak].
    rewrite <- Zle_Qle. apply rhe_monotone.
    apply Qmult_le_compat_r; [exact Hxy|].
    apply Qlt_le_weak, Qinv_lt_0_compat, Hu.
  - destruct (round_pos_range x Hx) as [_ H1].
    destruct (round_pos_range y Hy) as [H2 _].
    assert (Hp : 2 ^ (floor_log2 x + 1) <= 2 ^ floor_log2 y)
      by (apply pow2_le; lia).
    lra.
Qed.

Lemma round_pos_positive (a : Q) : 0 < a -> 0 < round_pos a.
Proof.
  intro Ha. destruct (round_pos_range a Ha) as [H _].
  pose proof (pow2_pos (floor_log2 a)). lra.
Qed.

(** The relative error of rounding is at most 2^-53. *)
Lemma round_pos_error (a : Q) :
  0 < a ->
  a - a * eps53 <= round_pos a /\ round_pos a <= a + a * eps53.
Proof.
  intro Ha. destruct (scaled_range a Ha) as (Hu & Hlo & Hhi & E1 & E2).
  destruct (floor_log2_spec a Ha) as [H1 _].
  unfold round_pos. set (u := 2 ^ (floor_log2 a - 52)) in *.
  destruct (rhe_near (a / u)) as [N1 N2].
  set (m := inject_Z (round_half_even (a / u))) in *.
  assert (Ea : a == a / u * u) by (field; lra).
  assert (Hhalf : u * (1 # 2) <= a * eps53).
  { rewrite E1 in H1.
    assert (E : a * eps53 == (a * eps52) * (1 # 2)) by (unfold eps53, eps52; ring).
    rewrite E. apply Qmult_le_compat_r; [|discriminate].
    assert (p52 * u * eps52 == u) by (unfold p52, eps52; field).
    assert (p52 * u * eps52 <= a * eps52)
      by (apply Qmult_le_compat_r; [exact H1 | discriminate]).
    lra. }
  assert (M1 : (m - (1 # 2)) * u <= a / u * u)
    by (apply Qmult_le_compat_r; [exact N1 | lra]).
  assert (M2 : a / u * u <= (m + (1 # 2)) * u)
    by (apply Qmult_le_compat_r; [exact N2 | lra]).
  rewrite <- Ea in M1, M2.
  split; lra.
Qed.

Lemma round53_zero : round53 0 = 0.
Proof. reflexivity. Qed.

Lemma round53_pos (q : Q) : 0 < q -> round53 q == round_pos q.
Proof.
  intro H. unfold round53.
  destruct (Qcompare_spec q 0) as [E|E|E]; try (exfalso; lra).
  apply Qred_correct.
Qed.

Lemma round53_neg (q : Q) : q < 0 -> round53 q == - round_pos (- q).
Proof.
  intro H. unfold round53.
  destruct (Qcompare_spec q 0) as [E|E|E]; try (exfalso; lra).
  apply Qred_correct.
Qed.

Lemma round53_null (q : Q) : q == 0 -> round53 q == 0.
Proof.
  intro H. unfold round53.
  destruct (Qcompare_spec q 0) as [E|E|E]; try (exfalso; lra). reflexivity.
Qed.

Lemma round53_monotone (x y : Q) : x <= y -> round53 x <= round53 y.
Proof.
  intro H.
  destruct (Qlt_le_dec 0 x) as [Hx|Hx].
  - rewrite (round53_pos x Hx), (round53_pos y) by lra.
    now apply round_pos_monotone.
  - destruct (Qlt_le_dec x 0) as [Hx'|Hx'].
    + rewrite (round53_neg x Hx').
      pose proof (round_pos_positive (- x)) as Px.
      destruct (Qlt_le_dec 0 y) as [Hy|Hy].
      * rewrite (round53_pos y Hy). pose proof (round_pos_positive y Hy). lra.
      * destruct (Qlt_le_dec y 0) as [Hy'|Hy'].
        -- rewrite (round53_neg y Hy').
           pose proof (round_pos_monotone (- y) (- x)). lra.
        -- rewrite (round53_null y) by lra. lra.
    + rewrite (round53_null x) by lra.
      destruct (Qlt_le_dec 0 y) as [Hy|Hy].
      * rewrite (round53_pos y Hy). pose proof (round_pos_positive y Hy). lra.
      * rewrite (round53_null y) by lra. lra.
Qed.

Lemma round53_error (q : Q) :
  q - Qabs q * eps53 <= round53 q /\ round53 q <= q + Qabs q * eps53.
Proof.
  destruct (Qlt_le_dec 0 q) as [Hq|Hq].
  - rewrite (round53_pos q Hq), Qabs_pos by lra. now apply round_pos_error.
  - destruct (Qlt_le_dec q 0) as [Hq'|Hq'].
    + rewrite (round53_neg q Hq'), Qabs_neg by lra.
      destruct (round_pos_error (- q)); lra.
    + rewrite (round53_null q) by lra.
      assert (E : q == 0) by lra. rewrite E. simpl. lra.
Qed.

Lemma round53_morphism (x y : Q) : x == y -> round53 x == round53 y.
Proof.
  intro H. apply Qle_antisym; apply round53_monotone; lra.
Qed.

(** ** Scoring *)

Lemma Qltb_lt (x y : Q) : Qltb x y = true <-> x < y.
Proof.
  unfold Qltb. rewrite negb_true_iff, <- not_true_iff_false, Qle_bool_iff.
  split; [apply Qnot_le_lt | apply Qlt_not_le].
Qed.

Lemma Qltb_ge (x y : Q) : Qltb x y = false <-> y <= x.
Proof. unfold Qltb. rewrite negb_false_iff. apply Qle_bool_iff. Qed.


(** The score of a translation whose normal form is not empty, in terms of
    the last character of that normal form. *)
Lemma score_translation_eq (source translation : pystr) (tgt : string) (c : char) :
  last_char (normalize translation) = Ok c ->
  score_translation source translation tgt
  = Ok (fsub
          (fadd (length_ratio (normalize source) (normalize translation))
             (end_bonus_of c))
          (fadd
             (leftover_penalty_of
                (count_leftover_scripts (normalize translation) tgt))
             (short_penalty_of
                (length_ratio (normalize source) (normalize translation))))).
Proof.
  intro H. unfold score_translation.
  destruct translation as [|d r]; [discriminate H|].
  cbn [is_empty]. rewrite H. reflexivity.
Qed.

(** When [score_translation] returns and when it raises. *)
Lemma score_translation_outcome (source translation : pystr) (tgt : string) :
  (translation = [] /\ score_translation source translation tgt = Ok (- (999 # 1)))
  \/ (translation <> [] /\ normalize translation = []
      /\ score_translation source translation tgt = Raise IndexError)
  \/ (normalize translation <> []
      /\ exists q, score_translation source translation tgt = Ok q).
Proof.
  destruct translation as [|d r]; [left; now split|]. right.
  destruct (normalize (d :: r)) as [|e n] eqn:E.
  - left. split; [discriminate|]. split; [reflexivity|].
    unfold score_translation. cbn [is_empty]. rewrite E. reflexivity.
  - right. split; [discriminate|].
    destruct (last_char_ok (e :: n)) as (c & Hc & _); [discriminate|].
    rewrite <- E in Hc. rewrite (score_translation_eq _ _ _ _ Hc). eauto.
Qed.



(** The constants of the score are the binary64 numbers nearest to 0.25,
    0.02, 0.7 and 0.55; only 0.25 is exact. *)
Lemma score_constants :
  float_lit (25 # 100) == 1 # 4
  /\ float_lit 0 == 0
  /\ float_lit (2 # 100) == 5764607523034235 # 288230376151711744
  /\ float_lit (7 # 10) == 3152519739159347 # 4503599627370496
  /\ float_lit (55 # 100) == 2476979795053773 # 4503599627370496.
Proof. repeat split. Qed.

(** *** How the score moves with the leftover count and the short penalty *)

Ltac qcompute := vm_compute; first [reflexivity | discriminate].

Lemma length_ratio_nonneg (s t : pystr) : 0 <= length_ratio s t.
Proof.
  unfold length_ratio, int_truediv, len.
  rewrite <- round53_zero at 1. apply round53_monotone.
  apply Qle_shift_div_l.
  - change 0 with (inject_Z 0). rewrite <- Zlt_Qlt. lia.
  - rewrite Qmult_0_l. change 0 with (inject_Z 0). rewrite <- Zle_Qle. lia.
Qed.

Lemma end_bonus_nonneg (c : char) : 0 <= end_bonus_of c.
Proof. unfold end_bonus_of. destruct (is_terminator c); qcompute. Qed.

Lemma short_penalty_range (r : Q) :
  0 <= short_penalty_of r /\ short_penalty_of r <= float_lit (7 # 10).
Proof.
  unfold short_penalty_of.
  destruct (Qltb r (float_lit (55 # 100))); split; qcompute.
Qed.

Lemma float_of_int_range (n k : Z) :
  (0 <= n <= k)%Z -> 0 <= float_of_int n /\ float_of_int n <= float_of_int k.
Proof.
  intros [H0 Hk]. unfold float_of_int. split.
  - rewrite <- round53_zero at 1. apply round53_monotone.
    change 0 with (inject_Z 0). now rewrite <- Zle_Qle.
  - apply round53_monotone. now rewrite <- Zle_Qle.
Qed.

Lemma leftover_penalty_range (n k : Z) :
  (0 <= n <= k)%Z ->
  0 <= leftover_penalty_of n /\ leftover_penalty_of n <= leftover_penalty_of k.
Proof.
  intro H. destruct (float_of_int_range n k H) as [H0 Hk].
  assert (Hc : 0 <= float_lit (2 # 100)) by qcompute.
  unfold leftover_penalty_of, fmul. split.
  - rewrite <- round53_zero at 1. apply round53_monotone.
    now apply Qmult_le_0_compat.
  - apply round53_monotone. now apply Qmult_le_compat_r.
Qed.

Lemma round53_within (K x : Q) :
  - K <= x -> x <= K ->
  x - K * eps53 <= round53 x /\ round53 x <= x + K * eps53.
Proof.
  intros H1 H2. destruct (round53_error x) as [E1 E2].
  assert (Ha : Qabs x <= K) by (apply Qabs_Qle_condition; split; assumption).
  assert (He : Qabs x * eps53 <= K * eps53)
    by (apply Qmult_le_compat_r; [exact Ha | discriminate]).
  split; lra.
Qed.

Lemma length_ratio_depends_on_length (s t1 t2 : pystr) :
  len t1 = len t2 -> length_ratio s t1 = length_ratio s t2.
Proof. intro H. unfold length_ratio. now rewrite H. Qed.

Lemma length_ratio_le (s t : pystr) (k : Z) :
  (len t <= k)%Z -> length_ratio s t <= float_of_int k.
Proof.
  intro H. unfold length_ratio, int_truediv, float_of_int.
  apply round53_monotone.
  assert (Hm : 1 <= inject_Z (Z.max (len s) 1))
    by (change 1 with (inject_Z 1); rewrite <- Zle_Qle; lia).
  assert (Ht : 0 <= inject_Z (len t))
    by (change 0 with (inject_Z 0); rewrite <- Zle_Qle; unfold len; lia).
  assert (Hk : inject_Z (len t) <= inject_Z k) by (now rewrite <- Zle_Qle).
  apply Qle_shift_div_r; [lra|]. nra.
Qed.

Lemma last_char_nonempty (s : pystr) (c : char) : last_char s = Ok c -> s <> [].
Proof. intros H ->. discriminate H. Qed.

Lemma inject_Z_minus (a b : Z) : inject_Z (a - b) == inject_Z a - inject_Z b.
Proof. unfold Z.sub. rewrite inject_Z_plus, inject_Z_opp. reflexivity. Qed.

(** The leftover penalty, up to rounding, for counts up to a million. *)
Lemma leftover_penalty_near (n : Z) :
  (0 <= n <= 1000000)%Z ->
  inject_Z n * (2 # 100) - (1 # 100000000000) <= leftover_penalty_of n
  /\ leftover_penalty_of n <= inject_Z n * (2 # 100) + (1 # 100000000000).
Proof.
  intros [H0 H1]. unfold leftover_penalty_of, fmul, float_of_int.
  assert (N0 : 0 <= inject_Z n)
    by (change 0 with (inject_Z 0); now rewrite <- Zle_Qle).
  assert (N1 : inject_Z n <= 1000000)
    by (change 1000000 with (inject_Z 1000000); now rewrite <- Zle_Qle).
  destruct (round53_within 1000000 (inject_Z n)) as [F1 F2]; [lra | lra |].
  set (F := round53 (inject_Z n)) in *.
  assert (Hc : float_lit (2 # 100) == 5764607523034235 # 288230376151711744)
    by reflexivity.
  assert (Hx : F * float_lit (2 # 100)
               == F * (5764607523034235 # 288230376151711744))
    by (rewrite Hc; reflexivity).
  set (X := F * float_lit (2 # 100)) in *.
  unfold eps53 in *.
  destruct (round53_within 20001 X) as [P1 P2]; [lra | lra |].
  unfold eps53 in *. split; lra.
Qed.

(** A ratio of lengths below the threshold is below it by a margin that
    rounding cannot hide, when the translation has at most a million
    characters. *)
Lemma short_ratio_gap (s t : pystr) :
  (len t <= 1000000)%Z ->
  length_ratio s t < float_lit (55 # 100) ->
  length_ratio s t <= (55 # 100) - (1 # 50000000).
Proof.
  intros Hb Hlt. unfold length_ratio, int_truediv in *.
  set (a := len t) in *. set (b := Z.max (len s) 1) in *.
  assert (Ha : (0 <= a)%Z) by (unfold a, len; lia).
  assert (Hb1 : (1 <= b)%Z) by (unfold b; lia).
  assert (Qb : 0 < inject_Z b)
    by (change 0 with (inject_Z 0); rewrite <- Zlt_Qlt; lia).
  assert (Hz : (20 * a < 11 * b)%Z).
  { destruct (Z_lt_le_dec (20 * a) (11 * b)) as [l|g]; [exact l|].
    exfalso. apply (Qlt_irrefl (float_lit (55 # 100))).
    eapply Qle_lt_trans; [|exact Hlt].
    unfold float_lit. apply round53_monotone.
    apply Qle_shift_div_l; [exact Qb|].
    rewrite Zle_Qle in g. rewrite !inject_Z_mult in g.
    change (inject_Z 20) with 20 in g. change (inject_Z 11) with 11 in g.
    lra. }
  assert (Hq : inject_Z a / inject_Z b <= 21999999 # 40000000).
  { apply Qle_shift_div_r; [exact Qb|].
    assert (Hl : (40000000 * a <= 21999999 * b)%Z) by lia.
    rewrite Zle_Qle in Hl. rewrite !inject_Z_mult in Hl.
    change (inject_Z 40000000) with 40000000 in Hl.
    change (inject_Z 21999999) with 21999999 in Hl.
    lra. }
  apply round53_monotone in Hq.
  assert (Hc : round53 (21999999 # 40000000) <= (55 # 100) - (1 # 50000000))
    by qcompute.
  lra.
Qed.

(** C6, as stated, fails: two leftover characters lower the score from 1.25
    to 1.21, which in binary64 is not a fall of 0.04; and when the ratio goes
    from 0.55 to 0.5 the score falls from 0.55 to about -0.2, by 0.75 and
    not by 0.7. *)
Lemma score_steps_counterexample :
  (exists s1 s2,
      score_translation (lit "hello") (lit "hola!") "eng_Latn" = Ok s1
      /\ score_translation (lit "hello") [1587; 1604; 97; 109; 33]%Z "eng_Latn"
         = Ok s2
      /\ count_leftover_scripts (lit "hola!") "eng_Latn" = 0%Z
      /\ count_leftover_scripts [1587; 1604; 97; 109; 33]%Z "eng_Latn" = 2%Z
      /\ ~ s1 - s2 == 2 * (2 # 100)
      /\ fsub s1 s2 <> float_lit (4 # 100))
  /\
  (exists s1 s2,
      score_translation (lit "twenty characters ok") (lit "eleven char") "eng_Latn"
      = Ok s1
      /\ score_translation (lit "twenty characters ok") (lit "ten--chars")
           "eng_Latn" = Ok s2
      /\ ~ s1 - s2 == 7 # 10
      /\ fsub s1 s2 <> float_lit (7 # 10)
      /\ 74 # 100 < s1 - s2).
Proof.
  split; do 2 eexists; (split; [reflexivity|]); (split; [reflexivity|]);
    repeat split; vm_compute; discriminate.
Qed.

(** C6, amended. With the source, the target, the length of the normal form
    and its last character fixed, the score never rises as the leftover
    count grows; for normal forms of at most a million characters it falls
    strictly, by 0.02 for each further leftover character up to a rounding
    allowance of 2^-30. With the end bonus and the leftover count fixed, a
    translation whose ratio is below 0.55 never scores above one whose ratio
    is at least 0.55: its short penalty is 0.7 instead of 0, and for normal
    forms of at most a million characters the score falls by 0.7 plus the
    fall of the ratio, up to the same allowance, hence by more than 0.7. *)
Theorem score_falls_with_leftover_and_shortness :
  (forall (source t1 t2 : pystr) (tgt : string) (c : char),
      last_char (normalize t1) = Ok c ->
      last_char (normalize t2) = Ok c ->
      len (normalize t1) = len (normalize t2) ->
      let n1 := count_leftover_scripts (normalize t1) tgt in
      let n2 := count_leftover_scripts (normalize t2) tgt in
      exists s1 s2,
        score_translation source t1 tgt = Ok s1
        /\ score_translation source t2 tgt = Ok s2
        /\ ((n1 <= n2)%Z -> s2 <= s1)
        /\ ((len (normalize t1) <= 1000000)%Z ->
            Qabs (s1 - s2 - inject_Z (n2 - n1) * (2 # 100)) <= score_tolerance
            /\ ((n1 < n2)%Z -> s2 < s1)))
  /\
  (forall (source1 source2 t1 t2 : pystr) (tgt : string) (c1 c2 : char),
      last_char (normalize t1) = Ok c1 ->
      last_char (normalize t2) = Ok c2 ->
      is_terminator c1 = is_terminator c2 ->
      count_leftover_scripts (normalize t1) tgt
      = count_leftover_scripts (normalize t2) tgt ->
      let ratio1 := length_ratio (normalize source1) (normalize t1) in
      let ratio2 := length_ratio (normalize source2) (normalize t2) in
      float_lit (55 # 100) <= ratio1 ->
      ratio2 < float_lit (55 # 100) ->
      exists s1 s2,
        score_translation source1 t1 tgt = Ok s1
        /\ score_translation source2 t2 tgt = Ok s2
        /\ short_penalty_of ratio1 = float_lit 0
        /\ short_penalty_of ratio2 = float_lit (7 # 10)
        /\ s2 <= s1
        /\ ((len (normalize t1) <= 1000000)%Z ->
            (len (normalize t2) <= 1000000)%Z ->
            Qabs (s1 - s2 - (ratio1 - ratio2 + (7 # 10))) <= score_tolerance
            /\ 7 # 10 < s1 - s2)).
Proof.
  split.
  - intros source t1 t2 tgt c H1 H2 Hlen n1 n2.
    rewrite (score_translation_eq source t1 tgt c H1),
            (score_translation_eq source t2 tgt c H2).
    do 2 eexists. split; [reflexivity|]. split; [reflexivity|].
    fold n1 n2.
    rewrite (length_ratio_depends_on_length _ _ _ Hlen).
    pose proof (leftover_within_length _ tgt (last_char_nonempty _ _ H1)) as L1.
    pose proof (leftover_within_length _ tgt (last_char_nonempty _ _ H2)) as L2.
    fold n1 in L1. fold n2 in L2. rewrite Hlen in L1.
    set (r := length_ratio (normalize source) (normalize t2)).
    set (S := short_penalty_of r). set (A := fadd r (end_bonus_of c)).
    split.
    + intro Hn. destruct (leftover_penalty_range n1 n2) as [_ Hp]; [lia|].
      unfold fsub, fadd. apply round53_monotone.
      assert (round53 (leftover_penalty_of n1 + S)
              <= round53 (leftover_penalty_of n2 + S))
        by (apply round53_monotone; lra).
      lra.
    + intro Hb. rewrite Hlen in Hb.
      pose proof (length_ratio_nonneg (normalize source) (normalize t2)) as R0.
      pose proof (length_ratio_le (normalize source) (normalize t2) 1000000 Hb)
        as R1.
      assert (E6 : float_of_int 1000000 == 1000000) by reflexivity.
      fold r in R0, R1. rewrite E6 in R1.
      pose proof (end_bonus_nonneg c) as B0.
      assert (B1 : end_bonus_of c <= 1 # 4)
        by (unfold end_bonus_of; destruct (is_terminator c); qcompute).
      destruct (short_penalty_range r) as [S0 S1]. fold S in S0, S1.
      assert (E7 : float_lit (7 # 10) <= 71 # 100) by qcompute.
      destruct (leftover_penalty_near n1) as [P1a P1b]; [lia|].
      destruct (leftover_penalty_near n2) as [P2a P2b]; [lia|].
      assert (N1 : 0 <= inject_Z n1 <= 1000000).
      { split; [change 0 with (inject_Z 0) | change 1000000 with (inject_Z 1000000)];
          rewrite <- Zle_Qle; lia. }
      assert (N2 : 0 <= inject_Z n2 <= 1000000).
      { split; [change 0 with (inject_Z 0) | change 1000000 with (inject_Z 1000000)];
          rewrite <- Zle_Qle; lia. }
      set (Q1 := leftover_penalty_of n1) in *.
      set (Q2 := leftover_penalty_of n2) in *.
      destruct (round53_within 1000001 (r + end_bonus_of c)) as [A1 A2];
        [lra | lra |].
      fold (fadd r (end_bonus_of c)) in A1, A2. fold A in A1, A2.
      destruct (round53_within 20002 (Q1 + S)) as [X1 X2]; [lra | lra |].
      destruct (round53_within 20002 (Q2 + S)) as [Y1 Y2]; [lra | lra |].
      fold (fadd Q1 S) in X1, X2. fold (fadd Q2 S) in Y1, Y2.
      set (B1' := fadd Q1 S) in *. set (B2' := fadd Q2 S) in *.
      unfold eps53 in *.
      destruct (round53_within 1048576 (A - B1')) as [U1 U2]; [lra | lra |].
      destruct (round53_within 1048576 (A - B2')) as [V1 V2]; [lra | lra |].
      fold (fsub A B1') in U1, U2. fold (fsub A B2') in V1, V2.
      set (s1 := fsub A B1') in *. set (s2 := fsub A B2') in *.
      unfold eps53 in *. rewrite inject_Z_minus.
      assert (Hd : Qabs (s1 - s2 - (inject_Z n2 - inject_Z n1) * (2 # 100))
                   <= score_tolerance).
      { apply Qabs_Qle_condition. unfold score_tolerance. split; lra. }
      split; [exact Hd|]. intro Hlt.
      assert (1 <= inject_Z n2 - inject_Z n1).
      { rewrite <- inject_Z_minus. change 1 with (inject_Z 1).
        rewrite <- Zle_Qle. lia. }
      apply Qabs_Qle_condition in Hd. unfold score_tolerance in Hd. lra.
  - intros source1 source2 t1 t2 tgt c1 c2 H1 H2 Hc Hn ratio1 ratio2 Hge Hlt.
    rewrite (score_translation_eq source1 t1 tgt c1 H1),
            (score_translation_eq source2 t2 tgt c2 H2).
    do 2 eexists. split; [reflexivity|]. split; [reflexivity|].
    fold ratio1 ratio2. rewrite Hn.
    assert (Eb : end_bonus_of c1 = end_bonus_of c2)
      by (unfold end_bonus_of; now rewrite Hc).
    rewrite Eb.
    assert (S1 : short_penalty_of ratio1 = float_lit 0)
      by (unfold short_penalty_of; apply Qltb_ge in Hge; now rewrite Hge).
    assert (S2 : short_penalty_of ratio2 = float_lit (7 # 10))
      by (unfold short_penalty_of; apply Qltb_lt in Hlt; now rewrite Hlt).
    rewrite S1, S2. split; [reflexivity|]. split; [reflexivity|].
    set (n := count_leftover_scripts (normalize t2) tgt) in *.
    set (P := leftover_penalty_of n). set (b := end_bonus_of c2).
    assert (E0 : float_lit 0 == 0) by reflexivity.
    assert (E7 : float_lit (7 # 10) == 3152519739159347 # 4503599627370496)
      by reflexivity.
    split.
    + unfold fsub, fadd.
      assert (round53 (ratio2 + b) <= round53 (ratio1 + b))
        by (apply round53_monotone; lra).
      assert (round53 (P + float_lit 0) <= round53 (P + float_lit (7 # 10)))
        by (apply round53_monotone; rewrite E0, E7; lra).
      apply round53_monotone. lra.
    + intros Hb1 Hb2.
      pose proof (length_ratio_nonneg (normalize source1) (normalize t1)) as R10.
      pose proof (length_ratio_le (normalize source1) (normalize t1) 1000000 Hb1)
        as R11.
      pose proof (length_ratio_nonneg (normalize source2) (normalize t2)) as R20.
      pose proof (length_ratio_le (normalize source2) (normalize t2) 1000000 Hb2)
        as R21.
      assert (E6 : float_of_int 1000000 == 1000000) by reflexivity.
      fold ratio1 in R10, R11. fold ratio2 in R20, R21. rewrite E6 in R11, R21.
      pose proof (end_bonus_nonneg c2) as B0. fold b in B0.
      assert (B1 : b <= 1 # 4)
        by (unfold b, end_bonus_of; destruct (is_terminator c2); qcompute).
      pose proof (leftover_within_length _ tgt (last_char_nonempty _ _ H2)) as L2.
      fold n in L2.
      destruct (leftover_penalty_range n 1000000) as [P0 P1]; [lia|].
      fold P in P0, P1.
      assert (E2 : leftover_penalty_of 1000000 <= 20001) by qcompute.
      assert (E55 : float_lit (55 # 100) == 2476979795053773 # 4503599627370496)
        by reflexivity.
      destruct (round53_within 1000001 (ratio1 + b)) as [A1 A2]; [lra | lra |].
      destruct (round53_within 1000001 (ratio2 + b)) as [A3 A4]; [lra | lra |].
      fold (fadd ratio1 b) in A1, A2. fold (fadd ratio2 b) in A3, A4.
      set (A := fadd ratio1 b) in *. set (A' := fadd ratio2 b) in *.
      destruct (round53_within 20002 (P + float_lit 0)) as [X1 X2];
        [lra | lra |].
      destruct (round53_within 20002 (P + float_lit (7 # 10))) as [Y1 Y2];
        [lra | lra |].
      fold (fadd P (float_lit 0)) in X1, X2.
      fold (fadd P (float_lit (7 # 10))) in Y1, Y2.
      set (B := fadd P (float_lit 0)) in *.
      set (B' := fadd P (float_lit (7 # 10))) in *.
      unfold eps53 in *.
      destruct (round53_within 1048576 (A - B)) as [U1 U2]; [lra | lra |].
      destruct (round53_within 1048576 (A' - B')) as [V1 V2]; [lra | lra |].
      fold (fsub A B) in U1, U2. fold (fsub A' B') in V1, V2.
      set (s1 := fsub A B) in *. set (s2 := fsub A' B') in *.
      unfold eps53 in *.
      assert (Hd : Qabs (s1 - s2 - (ratio1 - ratio2 + (7 # 10))) <= score_tolerance).
      { apply Qabs_Qle_condition. unfold score_tolerance. split; lra. }
      split; [exact Hd|].
      pose proof (short_ratio_gap (normalize source2) (normalize t2) Hb2 Hlt)
        as Hgap.
      fold ratio2 in Hgap.
      apply Qabs_Qle_condition in Hd. unfold score_tolerance in Hd. lra.
Qed.

Lemma score_falls_with_leftover_and_shortness_witness :
  (exists s1 s2,
      score_translation (lit "hello") (lit "hola!") "eng_Latn" = Ok s1
      /\ score_translation (lit "hello") [1587; 1604; 97; 109; 33]%Z "eng_Latn"
         = Ok s2
      /\ s2 < s1
      /\ Qabs (s1 - s2 - inject_Z 2 * (2 # 100)) <= score_tolerance)
  /\
  (exists s1 s2,
      score_translation (lit "twenty characters ok") (lit "eleven char") "eng_Latn"
      = Ok s1
      /\ score_translation (lit "twenty characters ok") (lit "ten--chars")
           "eng_Latn" = Ok s2
      /\ s2 <= s1
      /\ 7 # 10 < s1 - s2).
Proof.
  destruct score_falls_with_leftover_and_shortness as [P1 P2]. split.
  - destruct (P1 (lit "hello") (lit "hola!") [1587; 1604; 97; 109; 33]%Z
                "eng_Latn" 33%Z)
      as (s1 & s2 & E1 & E2 & _ & Hq);
      [reflexivity | reflexivity | reflexivity |].
    destruct Hq as [Hd Hs]; [vm_compute; discriminate|].
    exists s1, s2. split; [exact E1|]. split; [exact E2|].
    split; [apply Hs; reflexivity | exact Hd].
  - destruct (P2 (lit "twenty characters ok") (lit "twenty characters ok")
                (lit "eleven char") (lit "ten--chars") "eng_Latn"
                114%Z 115%Z)
      as (s1 & s2 & E1 & E2 & _ & _ & Hm & Hq);
      [reflexivity | reflexivity | reflexivity | reflexivity
       | vm_compute; discriminate | vm_compute; reflexivity |].
    destruct Hq as [_ Hs];
      [vm_compute; discriminate | vm_compute; discriminate |].
    exists s1, s2. split; [exact E1|]. split; [exact E2|].
    split; [exact Hm | exact Hs].
Defined.

(** C10, as stated, fails on a direct call: a translation of three spaces is
    not empty, so the guard lets it through; its normal form is empty, and
    taking its last character raises [IndexError]. *)
Theorem score_translation_blank_raises :
  score_translation (lit "abc") (lit "   ") "eng_Latn" = Raise IndexError.
Proof. reflexivity. Qed.

(** C10, amended: for every source, every target and every translation that
    is empty, or holds a character other than whitespace, or is a stripped
    string (as is every translation the only caller passes),
    [score_translation] returns a number and raises nothing; for the empty
    translation that number is -999. *)
Theorem score_translation_total_on_candidates (source translation : pystr)
    (tgt : string) :
  translation = [] \/ normalize translation <> []
  \/ (exists decoded, translation = strip decoded) ->
  exists q,
    score_translation source translation tgt = Ok q
    /\ (translation = [] -> q = - (999 # 1)).
Proof.
  intro H.
  assert (H' : translation = [] \/ normalize translation <> []).
  { destruct H as [H | [H | (d & ->)]]; auto.
    destruct (strip d) eqn:E; [now left|]. right.
    rewrite <- E. apply normalize_strip_nonempty. rewrite E. discriminate. }
  destruct (score_translation_outcome source translation tgt)
    as [(E & Hs) | [(Hne & E & _) | (Hne & q & Hs)]].
  - exists (- (999 # 1)). auto.
  - destruct H' as [H' | H']; contradiction.
  - exists q. split; [exact Hs|]. intro E. subst. now contradiction Hne.
Qed.

Lemma score_translation_total_on_candidates_witness :
  exists q,
    score_translation (lit "abc") (strip (lit "  hola  ")) "spa_Latn" = Ok q
    /\ (strip (lit "  hola  ") = [] -> q = - (999 # 1)).
Proof.
  apply (score_translation_total_on_candidates (lit "abc")
           (strip (lit "  hola  ")) "spa_Latn").
  right. right. exists (lit "  hola  "). reflexivity.
Defined.

(** X7: [score_translation] raises, and then it is [IndexError], exactly for
    the translations that are not empty but blank; for every other
    translation it returns a number. *)
Lemma score_translation_raises_iff (source translation : pystr) (tgt : string) :
  (score_translation source translation tgt = Raise IndexError
   <-> translation <> [] /\ forallb is_space translation = true)
  /\ (forall e, score_translation source translation tgt = Raise e ->
      e = IndexError)
  /\ (translation = [] \/ forallb is_space translation = false ->
      exists q, score_translation source translation tgt = Ok q).
Proof.
  rewrite <- normalize_empty_iff.
  destruct (score_translation_outcome source translation tgt)
    as [(E & H) | [(Hne & E & H) | (Hne & q & H)]]; rewrite H.
  - split; [split; [discriminate | intros [Hc _]; now contradiction Hc]|].
    split; [discriminate | eauto].
  - split; [split; auto|]. split; [now intros e [= <-]|].
    intros [Hc | Hc]; [contradiction|].
    apply normalize_empty_iff in E. congruence.
  - split; [split; [discriminate | intros [_ Hc]; now contradiction Hne]|].
    split; [discriminate | eauto].
Qed.

Lemma score_translation_raises_iff_witness :
  (score_translation (lit "abc") (lit "hola") "spa_Latn" = Raise IndexError
   <-> lit "hola" <> [] /\ forallb is_space (lit "hola") = true)
  /\ (forall e, score_translation (lit "abc") (lit "hola") "spa_Latn" = Raise e ->
      e = IndexError)
  /\ exists q, score_translation (lit "abc") (lit "hola") "spa_Latn" = Ok q.
Proof.
  destruct (score_translation_raises_iff (lit "abc") (lit "hola") "spa_Latn")
    as (H1 & H2 & H3).
  split; [exact H1|]. split; [exact H2|]. apply H3. right. reflexivity.
Defined.

Local Close Scope Q_scope.

(** ** First occurrences, [dict.fromkeys] and [Counter] *)

Lemma first_occurrences_In (l : list string) (x : string) :
  In x (first_occurrences l) <-> In x l.
Proof.
  induction l as [|y r IH]; simpl; [tauto|].
  rewrite filter_In, IH, negb_true_iff, String.eqb_neq.
  destruct (String.eqb_spec x y) as [->|Hn]; intuition congruence.
Qed.

Lemma first_occurrences_NoDup (l : list string) : NoDup (first_occurrences l).
Proof.
  induction l as [|y r IH]; simpl; constructor.
  - rewrite filter_In, String.eqb_refl. intros [_ H]. discriminate H.
  - apply NoDup_filter, IH.
Qed.

Lemma tag_in_app (k : string) (a b : list string) :
  tag_in k (a ++ b) = tag_in k a || tag_in k b.
Proof. apply existsb_app. Qed.

Lemma filter_filter_and {A} (p q : A -> bool) (l : list A) :
  filter p (filter q l) = filter (fun x => q x && p x) l.
Proof.
  induction l as [|x r IH]; simpl; [reflexivity|].
  destruct (q x); simpl; [destruct (p x)|]; rewrite IH; reflexivity.
Qed.

(** Adding keys one by one to [seen] appends the new ones in the order of
    their first occurrence. *)
Lemma fold_add_key (l seen : list string) :
  fold_left add_key l seen
  = seen ++ filter (fun k => negb (tag_in k seen)) (first_occurrences l).
Proof.
  revert seen. induction l as [|x r IH]; intro seen; simpl.
  - now rewrite app_nil_r.
  - rewrite IH. unfold add_key. rewrite filter_filter_and.
    destruct (tag_in x seen) eqn:Hx; simpl.
    + f_equal. apply filter_ext_in. intros k _.
      destruct (String.eqb_spec k x) as [->|Hn]; simpl.
      * now rewrite Hx.
      * reflexivity.
    + rewrite <- app_assoc. simpl. do 2 f_equal.
      apply filter_ext_in. intros k _. rewrite tag_in_app. simpl.
      rewrite orb_false_r, negb_orb, andb_comm. reflexivity.
Qed.

Lemma dict_fromkeys_first_occurrences (l : list string) :
  dict_fromkeys l = first_occurrences l.
Proof.
  unfold dict_fromkeys. change (fold_left add_key l [] = first_occurrences l).
  rewrite fold_add_key. simpl.
  induction (first_occurrences l) as [|x r IH]; simpl; congruence.
Qed.

Lemma keys_counter_incr (counts : list (string * Z)) (k : string) :
  keys (counter_incr counts k) = add_key (keys counts) k.
Proof.
  unfold add_key, keys, tag_in.
  induction counts as [|[k' n] r IH]; simpl; [reflexivity|].
  destruct (String.eqb k k'); simpl; [reflexivity|].
  rewrite IH. destruct (existsb (String.eqb k) (map fst r)); reflexivity.
Qed.

Lemma keys_fold_counter (l : list string) (counts : list (string * Z)) :
  keys (fold_left counter_incr l counts) = fold_left add_key l (keys counts).
Proof.
  revert counts. induction l as [|x r IH]; intro counts; simpl; [reflexivity|].
  now rewrite IH, keys_counter_incr.
Qed.

(** The keys of a [Counter] are the distinct elements in the order of their
    first occurrence, and its length is their number. *)
Lemma keys_Counter (l : list string) : keys (Counter l) = first_occurrences l.
Proof.
  unfold Counter. rewrite keys_fold_counter. simpl.
  rewrite <- dict_fromkeys_first_occurrences. reflexivity.
Qed.

Lemma length_Counter (l : list string) :
  List.length (Counter l) = List.length (first_occurrences l).
Proof. rewrite <- keys_Counter. unfold keys. now rewrite length_map. Qed.

(** ** The word tagger *)

Lemma detect_by_script_total (token : pystr) :
  detect_by_script token = Ok None
  \/ exists tag, detect_by_script token = Ok (Some tag) /\ In tag script_tags.
Proof.
  unfold detect_by_script, SCRIPT_PATTERNS, detect_by_script_in.
  repeat match goal with
         | |- context [if search ?p token then _ else _] =>
             destruct (search p token);
             [right; eexists; split; [reflexivity | simpl; tauto] |]
         end.
  now left.
Qed.

Lemma script_tags_truthy (tag : string) :
  In tag script_tags -> truthy (Some tag) = true /\ tag <> "punct".
Proof.
  simpl. intro H.
  repeat (destruct H as [<- | H]; [split; [reflexivity | discriminate] |]).
  destruct H.
Qed.

Lemma dict_get_MAP_not_punct (code fallback : string) :
  fallback <> "punct" -> dict_get MAP code fallback <> "punct".
Proof.
  intro H. unfold dict_get, MAP, dict_lookup.
  repeat match goal with
         | |- context [if String.eqb code ?k then _ else _] =>
             destruct (String.eqb code k); [discriminate |]
         end.
  exact H.
Qed.

Lemma dict_get_unknown {V : Type} (d : list (string * V)) (k : string) (default : V) :
  dict_lookup d k = None -> dict_get d k default = default.
Proof. intro H. unfold dict_get. now rewrite H. Qed.

(** A token of four characters or more is not a short Latin word. *)
Lemma long_is_not_short (b : bool) (token : pystr) :
  (4 <=? len token)%Z = true -> b && (len token <=? 3)%Z = false.
Proof. intro H. apply andb_false_iff. right. lia. Qed.

Section Tagger.

Variable is_word : char -> bool.
Variable LANGDETECT_AVAILABLE : bool.
Variable detect : World -> pystr -> option string.

(** What [detect_language] returns and whether it asks the identifier. *)
Lemma detect_language_eq (token : pystr) (fallback : string) (w : World) :
  let t := strip token in
  detect_language LANGDETECT_AVAILABLE detect token fallback w =
  if LANGDETECT_AVAILABLE && (4 <=? len t)%Z && no_script t
  then (Ok match detect w t with
           | Some code => dict_get MAP code fallback
           | None => fallback
           end, asked w t)
  else (Ok match detect_by_script t with
           | Ok (Some tag) => tag
           | _ => fallback
           end, w).
Proof.
  intro t. unfold detect_language. fold t.
  unfold no_script.
  destruct t as [|c r] eqn:Et.
  { rewrite andb_false_r. reflexivity. }
  rewrite <- Et. unfold bind, lift, ret.
  destruct (detect_by_script_total t) as [E | (tag & E & Hin)]; rewrite E.
  - rewrite andb_true_r.
    destruct (LANGDETECT_AVAILABLE && (4 <=? len t)%Z) eqn:Hq.
    + apply andb_true_iff in Hq as [_ Hlen].
      rewrite (long_is_not_short _ t Hlen).
      unfold query_identifier, asked. destruct (detect w t); reflexivity.
    + destruct (fullmatch_plus LATIN_RE t && (len t <=? 3)%Z); reflexivity.
  - rewrite andb_false_r.
    destruct (script_tags_truthy tag Hin) as [-> _]. reflexivity.
Qed.

(** The tagger never raises, never calls the engine and never answers with
    the punctuation marker unless the context language is that marker. *)
Lemma detect_language_not_punct (token : pystr) (fallback : string) (w : World) :
  fallback <> "punct" ->
  exists tag w',
    detect_language LANGDETECT_AVAILABLE detect token fallback w = (Ok tag, w')
    /\ engine_calls w' = engine_calls w
    /\ tag <> "punct".
Proof.
  intro Hf. rewrite detect_language_eq. cbv zeta.
  destruct (LANGDETECT_AVAILABLE && (4 <=? len (strip token))%Z
            && no_script (strip token)).
  - do 2 eexists. split; [reflexivity|]. split; [reflexivity|].
    destruct (detect w (strip token)); [apply dict_get_MAP_not_punct|]; exact Hf.
  - do 2 eexists. split; [reflexivity|]. split; [reflexivity|].
    destruct (detect_by_script_total (strip token)) as [E | (tag & E & Hin)];
      rewrite E; [exact Hf|].
    apply (script_tags_truthy tag Hin).
Qed.

(** C3, amended: the identifier is asked exactly when it is available, the
    stripped token has at least four characters and holds no character of
    a recognised script, whether or not it is made of Latin letters only.
    The code it answers goes through the table [MAP]; when the identifier
    raises or its code is not in the table the tagger returns the context
    language, and so it does, without asking, for every token without a
    recognised script that is shorter than four characters or met while the
    identifier is unavailable. *)
Theorem tagger_identifier_use (token : pystr) (fallback : string) (w : World) :
  let t := strip token in
  exists tag w',
    detect_language LANGDETECT_AVAILABLE detect token fallback w = (Ok tag, w')
    /\ engine_calls w' = engine_calls w
    /\ ((LANGDETECT_AVAILABLE = true /\ (4 <= len t)%Z /\ no_script t = true)
        /\ identifier_queries w' = identifier_queries w ++ [t]
        /\ tag = match detect w t with
                 | Some code =>
                     match dict_lookup MAP code with
                     | Some language => language
                     | None => fallback
                     end
                 | None => fallback
                 end
        \/
        (LANGDETECT_AVAILABLE = false \/ (len t < 4)%Z \/ no_script t = false)
        /\ w' = w
        /\ (if no_script t then tag = fallback else In tag script_tags)).
Proof.
  intro t. rewrite detect_language_eq. fold t.
  destruct (LANGDETECT_AVAILABLE && (4 <=? len t)%Z && no_script t) eqn:Hq.
  - do 2 eexists. split; [reflexivity|]. split; [reflexivity|]. left.
    apply andb_true_iff in Hq as [Hq Hs]. apply andb_true_iff in Hq as [Ha Hl].
    split; [repeat split; [exact Ha | lia | exact Hs]|].
    split; reflexivity.
  - do 2 eexists. split; [reflexivity|]. split; [reflexivity|]. right.
    split.
    + apply andb_false_iff in Hq as [Hq | Hs]; [|auto].
      apply andb_false_iff in Hq as [Ha | Hl]; [auto|]. right. left. lia.
    + split; [reflexivity|]. unfold no_script.
      destruct (detect_by_script_total t) as [E | (tag & E & Hin)]; rewrite E;
        [reflexivity | exact Hin].
Qed.

End Tagger.

(** C3, as stated, fails. The token [hello_world] is not made of Latin
    letters only and holds no character of a recognised script, yet the
    identifier is asked about it and its answer replaces the context
    language; the token [2024] is no Latin word either, and the identifier is
    asked about it even though, as it raises, the context language is
    returned. *)
Lemma tagger_identifier_counterexample :
  fullmatch_plus LATIN_RE (lit "hello_world") = false
  /\ no_script (lit "hello_world") = true
  /\ detect_language true (fun _ _ => Some "en") (lit "hello_world") "fra_Latn" w0
     = (Ok "eng_Latn", mkWorld [lit "hello_world"] [])
  /\ fullmatch_plus LATIN_RE (lit "2024") = false
  /\ no_script (lit "2024") = true
  /\ detect_language true (fun _ _ => None) (lit "2024") "fra_Latn" w0
     = (Ok "fra_Latn", mkWorld [lit "2024"] []).
Proof. repeat split. Qed.

(** ** Tokens and analysis *)

Lemma span_app (p : char -> bool) (s : pystr) :
  fst (span p s) ++ snd (span p s) = s.
Proof.
  induction s as [|c r IH]; simpl; [reflexivity|].
  destruct (p c); [|reflexivity].
  destruct (span p r) as [tok rest]. simpl in *. now rewrite IH.
Qed.

Lemma span_all (p : char -> bool) (s : pystr) :
  forallb p (fst (span p s)) = true.
Proof.
  induction s as [|c r IH]; simpl; [reflexivity|].
  destruct (p c) eqn:Hc; [|reflexivity].
  destruct (span p r) as [tok rest]. simpl in *. now rewrite Hc, IH.
Qed.

Lemma span_rest_shorter (p : char -> bool) (c : char) (r : pystr) :
  p c = true ->
  (List.length (snd (span p (c :: r))) <= List.length r)%nat
  /\ fst (span p (c :: r)) <> [].
Proof.
  intro Hc. pose proof (span_app p (c :: r)) as E.
  simpl in *. rewrite Hc in *. destruct (span p r) as [tok rest]. simpl in *.
  split; [|discriminate]. injection E as E. rewrite <- E, length_app. lia.
Qed.

Section Analysis.

Variable is_word : char -> bool.
Variable LANGDETECT_AVAILABLE : bool.
Variable detect : World -> pystr -> option string.

(** The alternative of the pattern that matches at a character does match
    that character. *)
Lemma alternative_matches (c : char) :
  (if is_word c then is_word
   else if is_punct_char is_word c then is_punct_char is_word
   else is_space) c = true.
Proof.
  destruct (is_word c) eqn:Hw; [exact Hw|].
  destruct (is_punct_char is_word c) eqn:Hp; [exact Hp|].
  unfold is_punct_char in Hp. rewrite Hw in Hp. simpl in Hp.
  now apply negb_false_iff in Hp.
Qed.

(** The fuel given to the tokenizer is enough: the tokens, put end to end,
    are the whole text, and none is empty. *)
Lemma findall_fuel_concat (fuel : nat) (text : pystr) :
  (List.length text <= fuel)%nat ->
  List.concat (findall_fuel is_word fuel text) = text
  /\ Forall (fun tok => tok <> []) (findall_fuel is_word fuel text).
Proof.
  revert text. induction fuel as [|fuel IH]; intros text Hlen.
  - destruct text; [now split | simpl in Hlen; lia].
  - destruct text as [|c r]; [now split|].
    cbn [findall_fuel].
    set (alt := if is_word c then is_word
                else if is_punct_char is_word c then is_punct_char is_word
                else is_space).
    pose proof (span_rest_shorter alt c r (alternative_matches c)) as [Hs Hne].
    pose proof (span_app alt (c :: r)) as Happ.
    destruct (span alt (c :: r)) as [tok rest]. cbn [fst snd] in *.
    destruct (IH rest) as [E F]; [simpl in Hlen; lia|].
    split; [|constructor; assumption].
    cbn [List.concat]. now rewrite E.
Qed.

Lemma findall_tokens_concat (text : pystr) :
  List.concat (findall_tokens is_word text) = text.
Proof. apply findall_fuel_concat. reflexivity. Qed.

Lemma tag_tokens_ok (tokens : list pystr) :
  forall (tagged : list (pystr * string)) (context_lang : string) (w : World),
    context_lang <> "punct" ->
    exists tagged' w',
      tag_tokens is_word LANGDETECT_AVAILABLE detect tokens tagged context_lang w
      = (Ok tagged', w')
      /\ engine_calls w' = engine_calls w
      /\ map fst tagged'
         = map fst tagged ++ filter (fun tok => negb (isspace tok)) tokens
      /\ (Forall (well_tagged is_word) tagged -> Forall (well_tagged is_word) tagged').
Proof.
  induction tokens as [|tok rest IH]; intros tagged ctx w Hctx.
  - exists tagged, w. simpl. rewrite app_nil_r. auto.
  - cbn [tag_tokens filter].
    destruct (isspace tok) eqn:Hs; cbn [negb].
    + apply IH, Hctx.
    + destruct (fullmatch_plus (is_punct_char is_word) tok) eqn:Hp.
      * destruct (IH (tagged ++ [(tok, "punct")]) ctx w Hctx)
          as (t' & w' & E & Hw & Hm & HF).
        exists t', w'. split; [exact E|]. split; [exact Hw|]. split.
        -- rewrite Hm, map_app, <- app_assoc. reflexivity.
        -- intro H. apply HF, Forall_app. split; [exact H|].
           constructor; [|constructor]. unfold well_tagged. simpl. tauto.
      * unfold bind at 1.
        destruct (detect_language_not_punct LANGDETECT_AVAILABLE detect
                    tok ctx w Hctx) as (lang & w1 & E1 & Hw1 & Hl).
        rewrite E1.
        destruct (IH (tagged ++ [(tok, lang)]) lang w1 Hl)
          as (t' & w' & E & Hw & Hm & HF).
        exists t', w'. split; [exact E|]. split; [congruence|]. split.
        -- rewrite Hm, map_app, <- app_assoc. reflexivity.
        -- intro H. apply HF, Forall_app. split; [exact H|].
           constructor; [|constructor]. unfold well_tagged. simpl.
           split; [intro; contradiction | intro; congruence].
Qed.

End Analysis.

Section Analyzer.

Variable is_word : char -> bool.
Variable LANGDETECT_AVAILABLE : bool.
Variable detect : World -> pystr -> option string.

Lemma word_tags_by_marker (tagged : list (pystr * string)) :
  Forall (well_tagged is_word) tagged ->
  map snd (filter (fun x => negb (String.eqb (snd x) "punct")) tagged)
  = word_tags is_word tagged.
Proof.
  intro H. unfold word_tags. f_equal. apply filter_ext_in.
  intros x Hin. rewrite Forall_forall in H. specialize (H x Hin).
  unfold well_tagged in H. f_equal.
  destruct (String.eqb_spec (snd x) "punct") as [E|E];
    destruct (fullmatch_plus (is_punct_char is_word) (fst x));
    intuition congruence.
Qed.

(** [analyze_words] never raises and never calls the engine; what it
    returns is well tagged and its language list is the list of first
    occurrences of the tags of its words. *)
Lemma analyze_words_ok (text : pystr) (w : World) :
  exists a w',
    analyze_words is_word LANGDETECT_AVAILABLE detect text w = (Ok a, w')
    /\ engine_calls w' = engine_calls w
    /\ Forall (well_tagged is_word) (words a)
    /\ languages_detected a = first_occurrences (word_tags is_word (words a))
    /\ languages_count a = Z.of_nat (List.length (languages_detected a)).
Proof.
  unfold analyze_words.
  destruct (is_empty text || is_empty (strip text)).
  - exists empty_analysis, w. repeat split. constructor.
  - unfold bind at 1.
    destruct (tag_tokens_ok is_word LANGDETECT_AVAILABLE detect
                (findall_tokens is_word text) [] "eng_Latn" w)
      as (tagged & w' & E & Hw & _ & HF); [discriminate|].
    rewrite E. specialize (HF (Forall_nil _)).
    eexists. exists w'. split; [reflexivity|]. split; [exact Hw|].
    cbn [words languages_detected languages_count].
    rewrite (word_tags_by_marker tagged HF), keys_Counter, length_Counter.
    auto.
Qed.

(** The tokens of a blank text are all whitespace. *)
Lemma blank_text_has_no_word (text : pystr) :
  strip text = [] ->
  filter (fun tok => negb (isspace tok)) (findall_tokens is_word text) = [].
Proof.
  intro Hb.
  assert (Hs : forall c, In c text -> is_space c = true).
  { intros c Hc. destruct (is_space c) eqn:E; [reflexivity|].
    pose proof (strip_keeps text c Hc E) as H. rewrite Hb in H. destruct H. }
  destruct (findall_fuel_concat is_word (List.length text) text (le_n _))
    as [Ec F].
  fold (findall_tokens is_word text) in Ec, F.
  assert (Hall : forall tok, In tok (findall_tokens is_word text) ->
                   isspace tok = true).
  { intros tok Hin. rewrite Forall_forall in F. specialize (F tok Hin).
    destruct tok as [|c r]; [now contradiction F|]. unfold isspace.
    apply forallb_forall. intros d Hd. apply Hs. rewrite <- Ec.
    apply in_concat. eauto. }
  clear Ec F. revert Hall. generalize (findall_tokens is_word text).
  intros l Hall. induction l as [|tok r IH]; [reflexivity|]. simpl.
  rewrite (Hall tok (or_introl eq_refl)). simpl.
  apply IH. intros; apply Hall; now right.
Qed.

(** The words [analyze_words] returns are the tokens of the text that are
    not whitespace, in text order. *)
Lemma analyze_words_tokens (text : pystr) (w : World) (a : AnalysisResult)
    (w' : World) :
  analyze_words is_word LANGDETECT_AVAILABLE detect text w = (Ok a, w') ->
  map fst (words a)
  = filter (fun tok => negb (isspace tok)) (findall_tokens is_word text).
Proof.
  unfold analyze_words.
  destruct (is_empty text || is_empty (strip text)) eqn:Hb.
  - intro E. injection E as <- <-.
    rewrite blank_text_has_no_word; [reflexivity|].
    apply orb_true_iff in Hb as [Hb|Hb]; apply is_empty_true in Hb;
      [now rewrite Hb | exact Hb].
  - unfold bind at 1.
    destruct (tag_tokens_ok is_word LANGDETECT_AVAILABLE detect
                (findall_tokens is_word text) [] "eng_Latn" w)
      as (tagged & w1 & E & _ & Hm & _); [discriminate|].
    rewrite E. intro Ea. injection Ea as <- <-. exact Hm.
Qed.

(** C9: [analyze_words] always returns; its word list holds the tokens of
    the text that are not whitespace, in text order, and in it a token
    carries the punctuation marker exactly when it is a run of punctuation;
    the language list is the list of first occurrences of the tags of the
    words that are not punctuation, so it has no entry twice and never the
    marker; and the language count is the length of that list. *)
Theorem analyze_words_punctuation (text : pystr) (w : World) :
  exists a w',
    analyze_words is_word LANGDETECT_AVAILABLE detect text w = (Ok a, w')
    /\ map fst (words a)
       = filter (fun tok => negb (isspace tok)) (findall_tokens is_word text)
    /\ (forall tok tag, In (tok, tag) (words a) ->
        (tag = "punct" <-> fullmatch_plus (is_punct_char is_word) tok = true))
    /\ languages_detected a = first_occurrences (word_tags is_word (words a))
    /\ (forall tag, In tag (languages_detected a) <->
        exists tok, In (tok, tag) (words a)
                    /\ fullmatch_plus (is_punct_char is_word) tok = false)
    /\ ~ In "punct" (languages_detected a)
    /\ NoDup (languages_detected a)
    /\ languages_count a = Z.of_nat (List.length (languages_detected a)).
Proof.
  destruct (analyze_words_ok text w) as (a & w' & E & _ & HF & Hl & Hc).
  exists a, w'. split; [exact E|].
  split; [exact (analyze_words_tokens text w a w' E)|].
  rewrite Forall_forall in HF.
  assert (Hin : forall tag, In tag (languages_detected a) <->
            exists tok, In (tok, tag) (words a)
                        /\ fullmatch_plus (is_punct_char is_word) tok = false).
  { intro tag. rewrite Hl, first_occurrences_In. unfold word_tags.
    rewrite in_map_iff. split.
    - intros ([tok tag'] & Ht & Hf). simpl in Ht. subst tag'.
      apply filter_In in Hf as [Hf Hp]. simpl in Hp.
      exists tok. split; [exact Hf | now apply negb_true_iff].
    - intros (tok & Hf & Hp). exists (tok, tag). split; [reflexivity|].
      apply filter_In. split; [exact Hf|]. simpl. now rewrite Hp. }
  split; [intros tok tag H; exact (HF (tok, tag) H)|].
  split; [exact Hl|]. split; [exact Hin|]. split.
  - intro H. apply Hin in H as (tok & Hf & Hp).
    apply HF in Hf. unfold well_tagged in Hf. simpl in Hf.
    destruct Hf as [Hf _]. rewrite Hf in Hp by reflexivity. discriminate.
  - split; [rewrite Hl; apply first_occurrences_NoDup | exact Hc].
Qed.

End Analyzer.

(** ** Selection *)

Lemma bind_ok {A B} (m : M A) (k : A -> M B) (w w' : World) (a : A) :
  m w = (Ok a, w') -> bind m k w = k a w'.
Proof. intro H. unfold bind. now rewrite H. Qed.

Lemma bind_raise {A B} (m : M A) (k : A -> M B) (w w' : World) (e : exn) :
  m w = (Raise e, w') -> bind m k w = (Raise e, w').
Proof. intro H. unfold bind. now rewrite H. Qed.

(** On what the engine wrapper returns, which is stripped, the score is
    always computed. *)
Lemma score_stripped (text decoded : pystr) (tgt : string) :
  exists q, score_translation text (strip decoded) tgt = Ok q.
Proof.
  destruct (score_translation_outcome text (strip decoded) tgt)
    as [(_ & H) | [(Hne & E & _) | (_ & H)]]; eauto.
  now apply normalize_strip_nonempty in Hne.
Qed.

Local Open Scope Q_scope.

(** [max_from] returns the first of the elements whose key is greatest. *)
Lemma max_from_first_best {T : Type} (key : T -> Q) (l : list T) :
  forall best,
    exists i,
      nth_error (best :: l) i = Some (max_from key best l)
      /\ (forall x, In x (best :: l) -> key x <= key (max_from key best l))
      /\ (forall j x, (j < i)%nat -> nth_error (best :: l) j = Some x ->
          key x < key (max_from key best l)).
Proof.
  induction l as [|y r IH]; intro best.
  - exists 0%nat. simpl. split; [reflexivity|]. split.
    + intros x [<-|[]]. apply Qle_refl.
    + intros j x Hj. lia.
  - cbn [max_from]. destruct (Qltb (key best) (key y)) eqn:Hc.
    + apply Qltb_lt in Hc.
      destruct (IH y) as (i & Hi & Hmax & Hfirst).
      exists (S i). split; [exact Hi|]. split.
      * intros x [<-|Hx]; [|now apply Hmax].
        apply Qlt_le_weak, (Qlt_le_trans _ (key y)); [exact Hc|].
        apply Hmax. now left.
      * intros [|j] x Hj Hx.
        -- injection Hx as <-. apply (Qlt_le_trans _ (key y)); [exact Hc|].
           apply Hmax. now left.
        -- apply (Hfirst j x); [lia | exact Hx].
    + apply Qltb_ge in Hc.
      destruct (IH best) as (i & Hi & Hmax & Hfirst).
      destruct i as [|i].
      * exists 0%nat. split; [exact Hi|]. split; [|intros j x Hj; lia].
        intros x [<-|[<-|Hx]].
        -- apply Hmax. now left.
        -- apply (Qle_trans _ (key best)); [exact Hc | apply Hmax; now left].
        -- apply Hmax. now right.
      * exists (S (S i)). split; [exact Hi|]. split.
        -- intros x [<-|[<-|Hx]].
           ++ apply Hmax. now left.
           ++ apply (Qle_trans _ (key best)); [exact Hc | apply Hmax; now left].
           ++ apply Hmax. now right.
        -- intros [|[|j]] x Hj Hx.
           ++ apply (Hfirst 0%nat x); [lia | exact Hx].
           ++ injection Hx as <-.
              apply (Qle_lt_trans _ (key best)); [exact Hc|].
              apply (Hfirst 0%nat best); [lia | reflexivity].
           ++ apply (Hfirst (S j) x); [lia | exact Hx].
Qed.

Local Close Scope Q_scope.

Section Selection.

Variable is_word : char -> bool.
Variable LANGDETECT_AVAILABLE : bool.
Variable detect : World -> pystr -> option string.
Variable generate : World -> pystr -> string -> string -> option pystr.

(** The loop over the source hypotheses either meets a failure of the
    engine and raises it, or returns one sound candidate per hypothesis, in
    order, after one engine call for each. *)
Lemma translate_candidates_ok (text : pystr) (tgt : string)
    (sources : list string) :
  forall w,
    (exists outputs w',
        translate_candidates generate text tgt sources w = (Ok outputs, w')
        /\ map cand_src outputs = sources
        /\ identifier_queries w' = identifier_queries w
        /\ engine_calls w'
           = engine_calls w ++ map (fun src => mkCall text src tgt) sources
        /\ Forall (candidate_ok generate text tgt) outputs)
    \/ (exists w' w1 src,
           translate_candidates generate text tgt sources w
           = (Raise EngineError, w')
           /\ In src sources
           /\ generate w1 text src tgt = None).
Proof.
  unfold translate_candidates.
  induction sources as [|src rest IH]; intro w.
  - left. exists [], w. simpl. rewrite app_nil_r. repeat split. constructor.
  - cbn [for_each].
    set (step := fun src0 : string =>
           out <- _translate_with_src generate text src0 tgt ;;
           score <- lift (score_translation text out tgt) ;;
           ret (out, score, src0)) in *.
    destruct (generate w text src tgt) as [d|] eqn:Hg.
    + destruct (score_stripped text d tgt) as (q & Hq).
      set (w1 := mkWorld (identifier_queries w)
                   (engine_calls w ++ [mkCall text src tgt])).
      assert (Hstep : step src w = (Ok (strip d, q, src), w1)).
      { unfold step, bind, _translate_with_src, lift, ret.
        rewrite Hg, Hq. reflexivity. }
      rewrite (bind_ok _ _ _ _ _ Hstep).
      destruct (IH w1) as [(outs & w' & E & Hs & Hi & Hc & HF)
                         | (w' & w2 & s2 & E & Hin & Hn)].
      * left. exists ((strip d, q, src) :: outs), w'.
        rewrite (bind_ok _ _ _ _ _ E). split; [reflexivity|].
        split; [simpl; now rewrite Hs|]. split; [exact Hi|]. split.
        -- rewrite Hc. simpl. now rewrite <- app_assoc.
        -- constructor; [|exact HF]. split; [exact Hq|].
           exists w, d. auto.
      * right. exists w', w2, s2. rewrite (bind_raise _ _ _ _ _ E).
        split; [reflexivity|]. split; [now right | exact Hn].
    + right. eexists. exists w, src. split; [|split; [now left | exact Hg]].
      apply bind_raise. unfold step. apply bind_raise.
      unfold _translate_with_src. rewrite Hg. reflexivity.
Qed.

Lemma translate_blank (text : pystr) (tgt : string) (w : World) :
  normalize text = [] -> translate is_word LANGDETECT_AVAILABLE detect generate text tgt w = (Ok empty_selection, w).
Proof. intro H. unfold translate. rewrite H. reflexivity. Qed.

(** What [translate] does on text that is not blank: the analysis comes
    first and calls no engine; then either the engine fails and the failure
    is raised, or the first of the best-scored candidates is returned with
    that analysis. *)
Lemma translate_outcome (text : pystr) (tgt : string) (w : World) :
  normalize text <> [] ->
  exists a w1,
    analyze_words is_word LANGDETECT_AVAILABLE detect (normalize text) w = (Ok a, w1)
    /\ engine_calls w1 = engine_calls w
    /\ ((exists w' w2 src,
            translate is_word LANGDETECT_AVAILABLE detect generate text tgt w = (Raise EngineError, w')
            /\ In src (hypotheses (languages_detected a))
            /\ generate w2 (normalize text) src tgt = None)
        \/
        (exists outputs w' i best,
            translate_candidates generate (normalize text) tgt
              (hypotheses (languages_detected a)) w1 = (Ok outputs, w')
            /\ map cand_src outputs = hypotheses (languages_detected a)
            /\ Forall (candidate_ok generate (normalize text) tgt) outputs
            /\ nth_error outputs i = Some best
            /\ (forall x, In x outputs -> (score_key x <= score_key best)%Q)
            /\ (forall j x, (j < i)%nat -> nth_error outputs j = Some x ->
                (score_key x < score_key best)%Q)
            /\ translate is_word LANGDETECT_AVAILABLE detect generate text tgt w
               = (Ok (mkSelection (cand_out best) (Some a) (Some (cand_src best))
                        (Some (round3 (score_key best)))), w'))).
Proof.
  intro Hne. unfold translate.
  apply is_empty_false in Hne. rewrite Hne.
  destruct (analyze_words_ok is_word LANGDETECT_AVAILABLE detect
              (normalize text) w) as (a & w1 & Ea & Hw1 & _).
  exists a, w1. split; [exact Ea|]. split; [exact Hw1|].
  rewrite (bind_ok _ _ _ _ _ Ea).
  destruct (translate_candidates_ok (normalize text) tgt
              (hypotheses (languages_detected a)) w1)
    as [(outs & w' & E & Hs & _ & _ & HF) | (w' & w2 & src & E & Hin & Hn)].
  - right. rewrite (bind_ok _ _ _ _ _ E).
    destruct outs as [|x r].
    { exfalso. pose proof (hypotheses_nonempty (languages_detected a)) as H.
      rewrite <- Hs in H. now apply H. }
    destruct (max_from_first_best score_key r x) as (i & Hi & Hmax & Hfirst).
    exists (x :: r), w', i, (max_from score_key x r).
    split; [exact E|]. split; [exact Hs|]. split; [exact HF|].
    split; [exact Hi|]. split; [exact Hmax|]. split; [exact Hfirst|].
    unfold bind, lift, py_max, ret.
    destruct (max_from score_key x r) as [[o q] sr]. reflexivity.
  - left. exists w', w2, src. rewrite (bind_raise _ _ _ _ _ E). auto.
Qed.

(** C8: for input that is empty or blank, [analyze_words] returns the empty
    word list, the empty language list and the count 0, and [translate]
    returns the empty translation; neither raises, and the world is left
    as it was, so neither the engine nor the identifier is called. *)
Theorem blank_input_gives_empty_results (text : pystr) (tgt : string) (w : World) :
  forallb is_space text = true ->
  analyze_words is_word LANGDETECT_AVAILABLE detect text w
  = (Ok (mkAnalysis [] [] 0), w)
  /\ translate is_word LANGDETECT_AVAILABLE detect generate text tgt w
     = (Ok (mkSelection [] None None None), w).
Proof.
  intro H. split.
  - unfold analyze_words. rewrite (strip_blank text H). cbn [is_empty].
    rewrite orb_true_r. reflexivity.
  - apply translate_blank, normalize_blank, H.
Qed.

(** C7: on text that is not blank the analysis is computed first, without
    any engine call; then, unless the engine fails on one of the source
    hypotheses (the failure is raised), there is one sound candidate per
    hypothesis, in order, and [translate] returns the translation and the
    source of the first candidate whose score no candidate exceeds, its
    score rounded, and that analysis. *)
Theorem translate_returns_first_best (text : pystr) (tgt : string) (w : World) :
  if is_empty (normalize text)
  then translate is_word LANGDETECT_AVAILABLE detect generate text tgt w
       = (Ok empty_selection, w)
  else
    exists a w1,
      analyze_words is_word LANGDETECT_AVAILABLE detect (normalize text) w
      = (Ok a, w1)
      /\ engine_calls w1 = engine_calls w
      /\ ((exists w' w2 src,
              translate is_word LANGDETECT_AVAILABLE detect generate text tgt w
              = (Raise EngineError, w')
              /\ In src (hypotheses (languages_detected a))
              /\ generate w2 (normalize text) src tgt = None)
          \/
          (exists outputs w' i best,
              translate_candidates generate (normalize text) tgt
                (hypotheses (languages_detected a)) w1 = (Ok outputs, w')
              /\ map cand_src outputs = hypotheses (languages_detected a)
              /\ Forall (candidate_ok generate (normalize text) tgt) outputs
              /\ nth_error outputs i = Some best
              /\ (forall x, In x outputs -> (score_key x <= score_key best)%Q)
              /\ (forall j x, (j < i)%nat -> nth_error outputs j = Some x ->
                  (score_key x < score_key best)%Q)
              /\ translate is_word LANGDETECT_AVAILABLE detect generate text tgt w
                 = (Ok (mkSelection (cand_out best) (Some a)
                          (Some (cand_src best))
                          (Some (round3 (score_key best)))), w'))).
Proof.
  destruct (is_empty (normalize text)) eqn:E.
  - apply translate_blank, is_empty_true, E.
  - apply translate_outcome, is_empty_false, E.
Qed.

(** C5, amended: when the text is not blank and every candidate the loop
    over the source hypotheses has produced carries an empty translation,
    [translate] raises nothing: it returns an ordinary result with the empty
    translation, the first source hypothesis, the score -999 and the
    analysis, which differs from the result for empty input only by these
    last three. *)
Theorem translate_all_empty (text : pystr) (tgt : string) (w w1 w' : World)
    (a : AnalysisResult) (outputs : list (pystr * Q * string)) :
  normalize text <> [] ->
  analyze_words is_word LANGDETECT_AVAILABLE detect (normalize text) w
  = (Ok a, w1) ->
  translate_candidates generate (normalize text) tgt
    (hypotheses (languages_detected a)) w1 = (Ok outputs, w') ->
  (forall x, In x outputs -> cand_out x = []) ->
  translate is_word LANGDETECT_AVAILABLE detect generate text tgt w
  = (Ok (mkSelection [] (Some a)
           (hd_error (hypotheses (languages_detected a)))
           (Some (round3 (- (999 # 1))))), w')
  /\ (round3 (- (999 # 1)) == - (999 # 1))%Q
  /\ mkSelection [] (Some a) (hd_error (hypotheses (languages_detected a)))
       (Some (round3 (- (999 # 1)))) <> empty_selection.
Proof.
  intros Hne Ea Ec Hblank.
  destruct (translate_outcome text tgt w Hne)
    as (a' & w1' & Ea' & _ & [(x' & w2 & src & Er & _ & _)
                            | (outs & x' & i & best & Ec' & Hs & HF & Hi & _ & Hfirst & E)]).
  { rewrite Ea in Ea'. injection Ea' as <- <-.
    unfold translate in Er. apply is_empty_false in Hne. rewrite Hne in Er.
    rewrite (bind_ok _ _ _ _ _ Ea), (bind_ok _ _ _ _ _ Ec) in Er.
    unfold bind, lift, py_max, ret in Er.
    destruct outputs as [|y r]; [|destruct (max_from score_key y r) as [[o q] sr]];
      discriminate Er. }
  rewrite Ea in Ea'. injection Ea' as <- <-.
  rewrite Ec in Ec'. injection Ec' as <- <-.
  assert (Hall : forall x, In x outputs ->
            cand_out x = [] /\ score_key x = (- (999 # 1))%Q).
  { intros x Hx. rewrite Forall_forall in HF.
    destruct (HF x Hx) as (Hq & _).
    pose proof (Hblank x Hx) as Hout.
    split; [exact Hout|]. rewrite Hout in Hq. cbn in Hq. congruence. }
  assert (Hi0 : i = 0%nat).
  { destruct i as [|i]; [reflexivity|]. exfalso.
    destruct outputs as [|x r]; [discriminate Hi|].
    pose proof (Hfirst 0%nat x (Nat.lt_0_succ i) eq_refl) as Hlt.
    destruct (Hall x (or_introl eq_refl)) as [_ Hx].
    destruct (Hall best (nth_error_In _ _ Hi)) as [_ Hb].
    rewrite Hx, Hb in Hlt. exact (Qlt_irrefl _ Hlt). }
  subst i. destruct outputs as [|x r]; [discriminate Hi|].
  injection Hi as ->.
  destruct (Hall best (or_introl eq_refl)) as [Ho Hq].
  rewrite Ho, Hq in E. rewrite <- Hs. cbn [map hd_error].
  split; [exact E|]. split; [reflexivity | discriminate].
Qed.

End Selection.

(** C8 on a space, a tab and a line feed. *)
Lemma blank_input_gives_empty_results_witness :
  analyze_words ascii_word true sample_detect [32; 9; 10]%Z w0
  = (Ok (mkAnalysis [] [] 0), w0)
  /\ translate ascii_word true sample_detect sample_engine [32; 9; 10]%Z
       "eng_Latn" w0
     = (Ok (mkSelection [] None None None), w0).
Proof.
  apply (blank_input_gives_empty_results ascii_word true sample_detect
           sample_engine [32; 9; 10]%Z "eng_Latn" w0).
  reflexivity.
Defined.

(** C5, as stated, fails: with an engine that answers only blanks, the
    selection for [hi] raises nothing and returns an ordinary result whose
    translation is empty. *)
Lemma translate_all_empty_counterexample :
  exists r w',
    translate ascii_word true sample_detect blank_engine (lit "hi") "arb_Arab" w0
    = (Ok r, w')
    /\ translation r = []
    /\ best_src r = Some "eng_Latn"
    /\ engine_calls w' = [mkCall (lit "hi") "eng_Latn" "arb_Arab"].
Proof.
  destruct (translate ascii_word true sample_detect blank_engine (lit "hi")
              "arb_Arab" w0) as [res w'] eqn:E.
  vm_compute in E. injection E as <- <-.
  do 2 eexists. split; [reflexivity|]. repeat split.
Qed.

Lemma translate_all_empty_witness :
  translate ascii_word true sample_detect blank_for_english_engine (lit "hi")
    "arb_Arab" w0
  = (Ok (mkSelection [] (Some (mkAnalysis [(lit "hi", "eng_Latn")] ["eng_Latn"] 1))
           (Some "eng_Latn") (Some (round3 (- (999 # 1))))),
     mkWorld [] [mkCall (lit "hi") "eng_Latn" "arb_Arab"])
  /\ (round3 (- (999 # 1)) == - (999 # 1))%Q
  /\ mkSelection [] (Some (mkAnalysis [(lit "hi", "eng_Latn")] ["eng_Latn"] 1))
       (Some "eng_Latn") (Some (round3 (- (999 # 1)))) <> empty_selection.
Proof.
  apply (translate_all_empty ascii_word true sample_detect
           blank_for_english_engine (lit "hi") "arb_Arab" w0 w0
           (mkWorld [] [mkCall (lit "hi") "eng_Latn" "arb_Arab"])
           (mkAnalysis [(lit "hi", "eng_Latn")] ["eng_Latn"] 1)
           [([], (- (999 # 1))%Q, "eng_Latn")]).
  - vm_compute. discriminate.
  - reflexivity.
  - reflexivity.
  - intros x [<- | []]. reflexivity.
Defined.

(** Scores are compared as binary64 numbers. For the text [Bonjour ab], of
    ten characters, the first candidate has seven characters and scores
    0.7; the second has eight, five of them Arabic letters, and scores
    0.8 - 0.1, which in binary64 is 0.7000000000000001: the second is
    returned, although both round to 0.7. *)
Example translate_near_tie :
  exists r w' s1 s2,
    translate ascii_word true sample_detect near_tie_engine (lit "Bonjour ab")
      "eng_Latn" w0 = (Ok r, w')
    /\ map call_src (engine_calls w') = ["eng_Latn"; "fra_Latn"]
    /\ score_translation (lit "Bonjour ab") (lit "abcdefg") "eng_Latn" = Ok s1
    /\ score_translation (lit "Bonjour ab")
         [1587; 1604; 1575; 1605; 1575; 97; 98; 99]%Z "eng_Latn" = Ok s2
    /\ (s1 < s2)%Q
    /\ (s2 - s1 == 1 # 9007199254740992)%Q
    /\ best_src r = Some "fra_Latn"
    /\ best_score r = Some (round3 s2)
    /\ round3 s2 = round3 s1.
Proof.
  destruct (translate ascii_word true sample_detect near_tie_engine
              (lit "Bonjour ab") "eng_Latn" w0) as [res w'] eqn:E.
  vm_compute in E. injection E as <- <-.
  do 4 eexists. split; [reflexivity|]. split; [reflexivity|].
  split; [vm_compute; reflexivity|]. split; [vm_compute; reflexivity|].
  repeat split.
Qed.

(** An engine that repeats its input gives the same score for every source
    hypothesis; the first one, English, is then the one returned. *)
Example translate_tie_keeps_first :
  exists r w',
    translate ascii_word true sample_detect echo_engine (lit "Bonjour le monde")
      "eng_Latn" w0 = (Ok r, w')
    /\ option_map languages_detected (analysis r) = Some ["fra_Latn"]
    /\ map call_src (engine_calls w') = ["eng_Latn"; "fra_Latn"]
    /\ best_src r = Some "eng_Latn"
    /\ translation r = lit "Bonjour le monde".
Proof.
  destruct (translate ascii_word true sample_detect echo_engine
              (lit "Bonjour le monde") "eng_Latn" w0) as [res w'] eqn:E.
  vm_compute in E. injection E as <- <-.
  do 2 eexists. split; [reflexivity|]. repeat split.
Qed.

(** * Further properties of the code *)

(** ** [strip] and [normalize] *)

Lemma lstrip_fixed (s : pystr) :
  (s = [] \/ exists c r, s = c :: r /\ is_space c = false) -> lstrip s = s.
Proof. intros [-> | (c & r & -> & Hc)]; simpl; [|rewrite Hc]; reflexivity. Qed.

Lemma lstrip_idempotent (s : pystr) : lstrip (lstrip s) = lstrip s.
Proof. apply lstrip_fixed, lstrip_head. Qed.

Lemma lstrip_suffix (s : pystr) :
  exists blanks, s = blanks ++ lstrip s /\ forallb is_space blanks = true.
Proof.
  induction s as [|c r (b & E & Hb)]; simpl; [now exists []|].
  destruct (is_space c) eqn:Hc.
  - exists (c :: b). simpl. rewrite Hc, Hb. split; [now f_equal | reflexivity].
  - now exists [].
Qed.

(** [rstrip] keeps a prefix and drops whitespace only. *)
Lemma rstrip_prefix (s : pystr) :
  exists blanks, s = rstrip s ++ blanks /\ forallb is_space blanks = true.
Proof.
  unfold rstrip. destruct (lstrip_suffix (rev s)) as (b & E & Hb).
  exists (rev b). split.
  - rewrite <- rev_app_distr, <- E. now rewrite rev_involutive.
  - rewrite forallb_forall in *. intros c Hc. apply Hb. now apply in_rev.
Qed.

Lemma rstrip_idempotent (s : pystr) : rstrip (rstrip s) = rstrip s.
Proof. unfold rstrip. now rewrite rev_involutive, lstrip_idempotent. Qed.

Lemma lstrip_rstrip_fixed (s : pystr) : lstrip s = s -> lstrip (rstrip s) = rstrip s.
Proof.
  intro H. apply lstrip_fixed.
  destruct (rstrip s) as [|c r] eqn:E; [now left|]. right. exists c, r.
  split; [reflexivity|].
  destruct (rstrip_prefix s) as (b & Es & _). rewrite E in Es.
  destruct (lstrip_head s) as [H0 | (c' & r' & H1 & Hc)]; rewrite H in *.
  - rewrite H0 in Es. discriminate Es.
  - rewrite H1 in Es. simpl in Es. congruence.
Qed.

Lemma strip_idempotent (s : pystr) : strip (strip s) = strip s.
Proof.
  unfold strip.
  rewrite (lstrip_rstrip_fixed (lstrip s) (lstrip_idempotent s)).
  apply rstrip_idempotent.
Qed.

(** A stripped string is empty or has a first and a last character that are
    not whitespace. *)
Lemma strip_ends (s : pystr) :
  strip s = []
  \/ exists c r d, strip s = c :: r /\ is_space c = false
                   /\ last (strip s) 0%Z = d /\ is_space d = false.
Proof.
  pose proof (lstrip_rstrip_fixed (lstrip s) (lstrip_idempotent s)) as Hl.
  fold (strip s) in Hl.
  destruct (strip s) as [|c r] eqn:E; [now left|]. right.
  destruct (lstrip_head (c :: r)) as [H0 | (c' & r' & H1 & Hc)];
    rewrite Hl in *; [discriminate H0|].
  injection H1 as <- <-.
  exists c, r, (last (c :: r) 0%Z). repeat split; [exact Hc|].
  assert (Hr : lstrip (rev (strip s)) = rev (strip s)).
  { unfold strip, rstrip. now rewrite rev_involutive, lstrip_idempotent. }
  rewrite E in Hr.
  destruct (exists_last (l := c :: r)) as (p & d & Ed); [discriminate|].
  rewrite Ed in *. rewrite last_last. rewrite rev_app_distr in Hr. simpl in Hr.
  destruct (is_space d) eqn:Hd; [|reflexivity]. exfalso.
  pose proof (f_equal (@List.length char) Hr) as Hlen.
  destruct (lstrip_suffix (rev p)) as (b & Eb & _).
  apply (f_equal (@List.length char)) in Eb. rewrite length_app in Eb.
  simpl in Hlen. lia.
Qed.

Lemma sub_ws_single_spaced (b : bool) (s : pystr) :
  single_spaced b (sub_ws b s) = true.
Proof.
  revert b. induction s as [|c r IH]; intro b; simpl; [reflexivity|].
  destruct (is_space c) eqn:Hc.
  - destruct b; [apply IH|]. simpl. apply IH.
  - simpl. rewrite Hc. apply IH.
Qed.

Lemma sub_ws_fixed (b : bool) (s : pystr) :
  single_spaced b s = true -> sub_ws b s = s.
Proof.
  revert b. induction s as [|c r IH]; intros b H; simpl in *; [reflexivity|].
  destruct (is_space c).
  - apply andb_true_iff in H as [H Hr]. apply andb_true_iff in H as [Hc Hb].
    apply Z.eqb_eq in Hc. apply negb_true_iff in Hb. subst b c.
    now rewrite (IH true Hr).
  - now rewrite (IH false H).
Qed.

Lemma single_spaced_lstrip (b b' : bool) (s : pystr) :
  single_spaced b s = true -> single_spaced b' (lstrip s) = true.
Proof.
  revert b. induction s as [|c r IH]; intros b H; simpl in *; [reflexivity|].
  destruct (is_space c) eqn:Hc.
  - apply andb_true_iff in H as [_ Hr]. exact (IH true Hr).
  - simpl. rewrite Hc. exact H.
Qed.

Lemma single_spaced_prefix (b : bool) (s t : pystr) :
  single_spaced b (s ++ t) = true -> single_spaced b s = true.
Proof.
  revert b. induction s as [|c r IH]; intros b H; simpl in *; [reflexivity|].
  destruct (is_space c).
  - apply andb_true_iff in H as [H Hr]. rewrite H. exact (IH true Hr).
  - exact (IH false H).
Qed.

Lemma single_spaced_strip (s : pystr) :
  single_spaced false s = true -> single_spaced false (strip s) = true.
Proof.
  intro H. unfold strip.
  destruct (rstrip_prefix (lstrip s)) as (b & E & _).
  apply (single_spaced_prefix false _ b). rewrite <- E.
  exact (single_spaced_lstrip false false s H).
Qed.

Lemma single_spaced_space_is_32 (b : bool) (s : pystr) (c : char) :
  single_spaced b s = true -> In c s -> is_space c = true -> c = 32%Z.
Proof.
  revert b. induction s as [|d r IH]; intros b H Hin Hc; simpl in *; [tauto|].
  destruct Hin as [->|Hin].
  - rewrite Hc in H. apply andb_true_iff in H as [H _].
    apply andb_true_iff in H as [H _]. now apply Z.eqb_eq.
  - destruct (is_space d).
    + apply andb_true_iff in H as [_ H]. eauto.
    + eauto.
Qed.

Lemma length_sub_ws (b : bool) (s : pystr) :
  (List.length (sub_ws b s) <= List.length s)%nat.
Proof.
  revert b. induction s as [|c r IH]; intro b; simpl; [lia|].
  pose proof (IH true). pose proof (IH false).
  destruct (is_space c); [destruct b|]; simpl; lia.
Qed.

Lemma length_lstrip (s : pystr) : (List.length (lstrip s) <= List.length s)%nat.
Proof.
  destruct (lstrip_suffix s) as (b & E & _).
  rewrite E at 2. rewrite length_app. lia.
Qed.

Lemma length_strip (s : pystr) : (List.length (strip s) <= List.length s)%nat.
Proof.
  unfold strip, rstrip. rewrite length_rev.
  pose proof (length_lstrip (rev (lstrip s))) as H. rewrite length_rev in H.
  pose proof (length_lstrip s). lia.
Qed.

Lemma normalize_strip_sub (s : pystr) : normalize s = strip (sub_ws false s).
Proof. destruct s; reflexivity. Qed.

Lemma normalize_single_spaced (s : pystr) :
  single_spaced false (normalize s) = true.
Proof.
  rewrite normalize_strip_sub. apply single_spaced_strip, sub_ws_single_spaced.
Qed.

Lemma normalize_fixed (s : pystr) : normalize (normalize s) = normalize s.
Proof.
  rewrite (normalize_strip_sub (normalize s)).
  rewrite (sub_ws_fixed _ _ (normalize_single_spaced s)).
  rewrite normalize_strip_sub. apply strip_idempotent.
Qed.

Lemma ink_lstrip (s : pystr) : ink (lstrip s) = ink s.
Proof.
  unfold ink. induction s as [|c r IH]; simpl; [reflexivity|].
  destruct (is_space c) eqn:Hc; simpl; [exact IH | now rewrite Hc].
Qed.

Lemma ink_rev (s : pystr) : ink (rev s) = rev (ink s).
Proof.
  unfold ink. induction s as [|c r IH]; simpl; [reflexivity|].
  rewrite filter_app, IH. simpl. destruct (is_space c); simpl;
    [now rewrite app_nil_r | reflexivity].
Qed.

Lemma ink_strip (s : pystr) : ink (strip s) = ink s.
Proof.
  unfold strip, rstrip.
  now rewrite ink_rev, ink_lstrip, ink_rev, rev_involutive, ink_lstrip.
Qed.

Lemma ink_sub_ws (b : bool) (s : pystr) : ink (sub_ws b s) = ink s.
Proof.
  unfold ink. revert b. induction s as [|c r IH]; intro b; simpl; [reflexivity|].
  destruct (is_space c) eqn:Hc; simpl.
  - destruct b; simpl; apply IH.
  - rewrite Hc. simpl. now rewrite IH.
Qed.

(** X1: normalising twice is normalising once. *)
Theorem normalize_idempotent (text : pystr) :
  normalize (normalize text) = normalize text.
Proof. apply normalize_fixed. Qed.

(** X2: a normal form is never longer than the text; it is empty or starts
    and ends with a character that is not whitespace; and each of its
    whitespace characters is a U+0020 with no whitespace next to it. *)
Theorem normalize_shape (text : pystr) :
  let n := normalize text in
  (len n <= len text)%Z
  /\ (n = [] \/ is_space (hd 0%Z n) = false /\ is_space (last n 0%Z) = false)
  /\ single_spaced false n = true
  /\ (forall c, In c n -> is_space c = true -> c = 32%Z).
Proof.
  cbv zeta. split; [|split; [|split]].
  - rewrite normalize_strip_sub. unfold len.
    pose proof (length_strip (sub_ws false text)).
    pose proof (length_sub_ws false text). lia.
  - rewrite normalize_strip_sub.
    destruct (strip_ends (sub_ws false text)) as [E | (c & r & d & E & Hc & Hl & Hd)].
    + now left.
    + right. rewrite Hl. rewrite E. simpl. auto.
  - apply normalize_single_spaced.
  - intros c. apply single_spaced_space_is_32 with (b := false).
    apply normalize_single_spaced.
Qed.

(** X3: normalising a text neither adds, drops nor reorders a character that
    is not whitespace. *)
Theorem normalize_keeps_ink (text : pystr) : ink (normalize text) = ink text.
Proof. rewrite normalize_strip_sub, ink_strip. apply ink_sub_ws. Qed.

(** ** Leftover counts and scores *)

(** X4: for every target and every text that is not empty, the leftover
    count lies between 0 and the length of the text: no character is counted
    twice, whatever the target. *)
Theorem leftover_count_bounds (text : pystr) (tgt : string) :
  text <> [] -> (0 <= count_leftover_scripts text tgt <= len text)%Z.
Proof. intro H. exact (leftover_within_length text tgt H). Qed.

Lemma leftover_count_bounds_witness :
  (0 <= count_leftover_scripts [1587; 97; 1078]%Z "tha_Thai"
   <= len [1587; 97; 1078]%Z)%Z.
Proof. apply (leftover_count_bounds [1587; 97; 1078]%Z "tha_Thai"). discriminate. Defined.

Local Open Scope Q_scope.

(** X5: the score depends on the source and the translation through their
    normal forms only: texts that differ in whitespace alone get the same
    score, as long as the translation is not blank. *)
Theorem score_depends_on_normal_forms (s1 s2 t1 t2 : pystr) (tgt : string) :
  normalize s1 = normalize s2 ->
  normalize t1 = normalize t2 ->
  normalize t1 <> [] ->
  score_translation s1 t1 tgt = score_translation s2 t2 tgt
  /\ score_translation s1 t1 tgt
     = score_translation (normalize s1) (normalize t1) tgt.
Proof.
  intros Hs Ht Hne.
  destruct (last_char_ok (normalize t1) Hne) as (c & Hc & _).
  rewrite (score_translation_eq s1 t1 tgt c Hc).
  rewrite (score_translation_eq s2 t2 tgt c) by (rewrite <- Ht; exact Hc).
  rewrite (score_translation_eq (normalize s1) (normalize t1) tgt c)
    by (rewrite normalize_fixed; exact Hc).
  rewrite !normalize_fixed, Hs, Ht. split; reflexivity.
Qed.

Lemma score_depends_on_normal_forms_witness :
  score_translation (lit " a  b ") (lit "x   y.") "eng_Latn"
  = score_translation (lit "a b") (lit "  x y.  ") "eng_Latn"
  /\ score_translation (lit " a  b ") (lit "x   y.") "eng_Latn"
     = score_translation (normalize (lit " a  b ")) (normalize (lit "x   y."))
         "eng_Latn".
Proof.
  apply (score_depends_on_normal_forms (lit " a  b ") (lit "a b")
           (lit "x   y.") (lit "  x y.  ") "eng_Latn").
  - reflexivity.
  - reflexivity.
  - vm_compute. discriminate.
Defined.

(** A translation that is not blank and has at most 49,900 characters in
    normal form scores above the -999 of an empty one. *)
Lemma score_above_sentinel (source translation : pystr) (tgt : string) :
  normalize translation <> [] ->
  (len (normalize translation) <= 49900)%Z ->
  exists q, score_translation source translation tgt = Ok q /\ - (999 # 1) < q.
Proof.
  intros Hne Hlen.
  destruct (last_char_ok (normalize translation) Hne) as (c & Hc & _).
  rewrite (score_translation_eq source translation tgt c Hc).
  eexists. split; [reflexivity|].
  pose proof (length_ratio_nonneg (normalize source) (normalize translation)) as Hr.
  pose proof (end_bonus_nonneg c) as Hb.
  pose proof (short_penalty_range
                (length_ratio (normalize source) (normalize translation)))
    as [_ Hs].
  pose proof (leftover_within_length (normalize translation) tgt Hne) as Hl.
  destruct (leftover_penalty_range
              (count_leftover_scripts (normalize translation) tgt) 49900)
    as [_ Hp]; [lia|].
  set (A := fadd _ _). set (P := leftover_penalty_of _) in *.
  set (S := short_penalty_of _) in *.
  assert (HA : 0 <= A).
  { unfold A, fadd. rewrite <- round53_zero at 1. apply round53_monotone. lra. }
  assert (HB : fadd P S <= 99875 # 100).
  { unfold fadd.
    apply (Qle_trans _ (round53 (leftover_penalty_of 49900 + float_lit (7 # 10))));
      [apply round53_monotone; lra | qcompute]. }
  apply (Qlt_le_trans _ (round53 (0 - (99875 # 100)))); [qcompute|].
  unfold fsub. apply round53_monotone. lra.
Qed.

(** X6: a translation that is not blank and whose normal form has at most
    49,900 characters always gets a score, and that score is above the -999
    given to an empty translation. *)
Theorem nonblank_scores_above_empty (source translation : pystr) (tgt : string) :
  normalize translation <> [] ->
  (len (normalize translation) <= 49900)%Z ->
  exists q,
    score_translation source translation tgt = Ok q
    /\ score_translation source [] tgt = Ok (- (999 # 1))
    /\ - (999 # 1) < q.
Proof.
  intros Hne Hlen.
  destruct (score_above_sentinel source translation tgt Hne Hlen) as (q & E & H).
  exists q. repeat split; assumption.
Qed.

Lemma nonblank_scores_above_empty_witness :
  exists q,
    score_translation (lit "hello") [1587; 1604]%Z "eng_Latn" = Ok q
    /\ score_translation (lit "hello") [] "eng_Latn" = Ok (- (999 # 1))
    /\ - (999 # 1) < q.
Proof.
  apply (nonblank_scores_above_empty (lit "hello") [1587; 1604]%Z "eng_Latn").
  - vm_compute. discriminate.
  - vm_compute. discriminate.
Defined.

Local Close Scope Q_scope.

(** ** Scripts and the tagger *)

Lemma search_same_characters (pat : char -> bool) (t1 t2 : pystr) :
  (forall c, In c t1 <-> In c t2) -> search pat t1 = search pat t2.
Proof.
  intro H. unfold search.
  destruct (existsb pat t1) eqn:E1; destruct (existsb pat t2) eqn:E2;
    try reflexivity.
  - apply existsb_exists in E1 as (c & Hin & Hc).
    assert (existsb pat t2 = true) by (apply existsb_exists; exists c; firstorder).
    congruence.
  - apply existsb_exists in E2 as (c & Hin & Hc).
    assert (existsb pat t1 = true) by (apply existsb_exists; exists c; firstorder).
    congruence.
Qed.

(** X8: [detect_by_script] never raises, and its answer depends only on
    which characters occur in the token, not on their order or number: the
    script is chosen by the order of the table, not by the first character. *)
Theorem detect_by_script_same_characters (t1 t2 : pystr) :
  (forall c, In c t1 <-> In c t2) ->
  exists answer,
    detect_by_script t1 = Ok answer /\ detect_by_script t2 = Ok answer.
Proof.
  intro H.
  assert (E : detect_by_script t1 = detect_by_script t2).
  { unfold detect_by_script.
    induction SCRIPT_PATTERNS as [|[script pat] rest IH]; simpl; [reflexivity|].
    rewrite (search_same_characters pat t1 t2 H), IH. reflexivity. }
  rewrite <- E.
  destruct (detect_by_script_total t1) as [E1 | (tag & E1 & _)];
    rewrite E1; eauto.
Qed.

Lemma detect_by_script_same_characters_witness :
  exists answer,
    detect_by_script [1078; 1587; 97]%Z = Ok answer
    /\ detect_by_script [97; 1587; 1078; 1078]%Z = Ok answer.
Proof.
  apply (detect_by_script_same_characters [1078; 1587; 97]%Z
           [97; 1587; 1078; 1078]%Z).
  intro c. simpl. tauto.
Defined.

Lemma dict_get_MAP_registered (code fallback : string) :
  dict_get MAP code fallback = fallback
  \/ tag_in (dict_get MAP code fallback) (map snd LANGUAGES) = true.
Proof.
  unfold dict_get, MAP, dict_lookup.
  repeat match goal with
         | |- context [if String.eqb code ?k then _ else _] =>
             destruct (String.eqb code k); [right; reflexivity |]
         end.
  now left.
Qed.

Lemma script_tags_registered (tag : string) :
  In tag script_tags -> tag_in tag (map snd LANGUAGES) = true.
Proof.
  simpl. intro H.
  repeat (destruct H as [<- | H]; [reflexivity |]).
  destruct H.
Qed.

Section TaggerFacts.

Variable LANGDETECT_AVAILABLE : bool.
Variable detect : World -> pystr -> option string.

(** X9: a token that, stripped, has at most three characters and none of a
    recognised script gets the context language, and the identifier is not
    asked, whether or not it is available. *)
Theorem short_token_keeps_context (token : pystr) (fallback : string) (w : World) :
  (len (strip token) <= 3)%Z ->
  no_script (strip token) = true ->
  detect_language LANGDETECT_AVAILABLE detect token fallback w = (Ok fallback, w).
Proof.
  intros Hlen Hs. rewrite detect_language_eq. cbv zeta.
  replace (4 <=? len (strip token))%Z with false by (symmetry; lia).
  rewrite andb_false_r. simpl. unfold no_script in Hs.
  destruct (detect_by_script (strip token)) as [[tag|]|]; try discriminate.
  reflexivity.
Qed.

(** X10: whitespace around a token does not matter to the tagger. *)
Theorem tagger_ignores_outer_whitespace (token : pystr) (fallback : string)
    (w : World) :
  detect_language LANGDETECT_AVAILABLE detect (strip token) fallback w
  = detect_language LANGDETECT_AVAILABLE detect token fallback w.
Proof. rewrite !detect_language_eq. cbv zeta. now rewrite strip_idempotent. Qed.

(** The tagger answers with its context language or with a code of the
    registry of language_config.py. *)
Lemma detect_language_registered (token : pystr) (fallback : string) (w : World) :
  exists tag w',
    detect_language LANGDETECT_AVAILABLE detect token fallback w = (Ok tag, w')
    /\ (tag = fallback \/ tag_in tag (map snd LANGUAGES) = true).
Proof.
  rewrite detect_language_eq. cbv zeta.
  destruct (LANGDETECT_AVAILABLE && (4 <=? len (strip token))%Z
            && no_script (strip token)).
  - do 2 eexists. split; [reflexivity|].
    destruct (detect w (strip token)); [apply dict_get_MAP_registered | now left].
  - do 2 eexists. split; [reflexivity|].
    destruct (detect_by_script_total (strip token)) as [E | (tag & E & Hin)];
      rewrite E; [now left|].
    right. apply script_tags_registered, Hin.
Qed.

End TaggerFacts.

Lemma short_token_keeps_context_witness :
  detect_language true (fun _ _ => Some "fr") (lit " le ") "spa_Latn" w0
  = (Ok "spa_Latn", w0).
Proof.
  apply (short_token_keeps_context true (fun _ _ => Some "fr") (lit " le ")
           "spa_Latn" w0).
  - vm_compute. discriminate.
  - reflexivity.
Defined.

(** ** The registry of language_config.py *)

Lemma dict_lookup_In {V : Type} (d : list (string * V)) (k : string) (v : V) :
  dict_lookup d k = Some v -> In (k, v) d.
Proof.
  induction d as [|[k' v'] r IH]; simpl; [discriminate|].
  destruct (String.eqb_spec k k') as [->|Hn].
  - intro H. injection H as ->. now left.
  - intro H. right. auto.
Qed.

Lemma dict_lookup_None {V : Type} (d : list (string * V)) (k : string) :
  ~ In k (keys d) -> dict_lookup d k = None.
Proof.
  induction d as [|[k' v'] r IH]; simpl; [reflexivity|].
  intro H. destruct (String.eqb_spec k k') as [->|Hn]; [tauto|].
  apply IH. tauto.
Qed.

(** Every entry of [LANGUAGES] is found under its name, and its code leads
    back to the name. *)
Lemma LANGUAGES_entries (name code : string) :
  In (name, code) LANGUAGES ->
  get_language_code name = Some code /\ get_language_name_from_code code = name.
Proof.
  assert (H : forallb
                (fun item : string * string =>
                   match get_language_code (fst item) with
                   | Some code' => String.eqb code' (snd item)
                   | None => false
                   end
                   && String.eqb (get_language_name_from_code (snd item)) (fst item))
                LANGUAGES = true) by (vm_compute; reflexivity).
  rewrite forallb_forall in H. intro Hin. specialize (H _ Hin). simpl in H.
  apply andb_true_iff in H as [H1 H2]. apply String.eqb_eq in H2.
  split; [|exact H2].
  destruct (get_language_code name); [|discriminate].
  apply String.eqb_eq in H1. now subst.
Qed.

(** X11: name to code and back: the code found for a language name is given
    that same name by [get_language_name_from_code], and the name leads to
    the code again. *)
Theorem language_name_round_trip (name code : string) :
  get_language_code name = Some code ->
  get_language_name_from_code code = name
  /\ get_language_code (get_language_name_from_code code) = Some code.
Proof.
  intro H. apply dict_lookup_In in H.
  destruct (LANGUAGES_entries name code H) as [H1 H2].
  rewrite H2. auto.
Qed.

Lemma language_name_round_trip_witness :
  get_language_name_from_code "zho_Hant" = "Chinese (Traditional)"
  /\ get_language_code (get_language_name_from_code "zho_Hant") = Some "zho_Hant".
Proof.
  apply (language_name_round_trip "Chinese (Traditional)" "zho_Hant").
  reflexivity.
Defined.

(** X12: every code is either the code of exactly the language name
    [get_language_name_from_code] gives for it, or the code of no language,
    and then [get_language_name_from_code] returns the code itself. *)
Theorem language_code_known_or_echoed (code : string) :
  (exists name,
      get_language_name_from_code code = name
      /\ get_language_code name = Some code
      /\ forall name', get_language_code name' = Some code -> name' = name)
  \/ (get_language_name_from_code code = code
      /\ forall name, get_language_code name <> Some code).
Proof.
  destruct (in_dec string_dec code (map snd LANGUAGES)) as [Hin | Hout].
  - left. apply in_map_iff in Hin as ([name code'] & E & Hin). simpl in E. subst.
    destruct (LANGUAGES_entries name code Hin) as [H1 H2].
    exists name. repeat split; try assumption.
    intros name' H'. apply dict_lookup_In in H'.
    destruct (LANGUAGES_entries name' code H') as [_ H3]. congruence.
  - right. split.
    + unfold get_language_name_from_code, dict_get.
      rewrite dict_lookup_None; [reflexivity|].
      replace (keys CODE_TO_LANGUAGE) with (map snd LANGUAGES)
        by (vm_compute; reflexivity).
      exact Hout.
    + intros name H. apply dict_lookup_In in H. apply Hout.
      apply in_map_iff. now exists (name, code).
Qed.

Lemma insert_sorted_perm (x : string) (l : list string) :
  Permutation (insert_sorted x l) (x :: l).
Proof.
  induction l as [|y r IH]; simpl; [reflexivity|].
  destruct (String.leb x y); [reflexivity|].
  rewrite IH. apply perm_swap.
Qed.

Lemma sorted_perm (l : list string) : Permutation (sorted l) l.
Proof.
  induction l as [|x r IH]; simpl; [reflexivity|].
  rewrite insert_sorted_perm. now constructor.
Qed.

Lemma insert_sorted_HdRel (x y : string) (l : list string) :
  String.leb y x = true ->
  HdRel (fun a b => String.leb a b = true) y l ->
  HdRel (fun a b => String.leb a b = true) y (insert_sorted x l).
Proof.
  intros Hyx H. destruct l as [|z r]; simpl; [now constructor|].
  destruct (String.leb x z); constructor; [exact Hyx|].
  now inversion H.
Qed.

Lemma insert_sorted_Sorted (x : string) (l : list string) :
  Sorted (fun a b => String.leb a b = true) l ->
  Sorted (fun a b => String.leb a b = true) (insert_sorted x l).
Proof.
  induction 1 as [|y r Hs IH Hd]; simpl.
  - repeat constructor.
  - destruct (String.leb x y) eqn:E.
    + constructor; [now constructor|]. now constructor.
    + constructor; [exact IH|]. apply insert_sorted_HdRel; [|exact Hd].
      destruct (String.leb_total x y); congruence.
Qed.

Lemma sorted_Sorted (l : list string) :
  Sorted (fun a b => String.leb a b = true) (sorted l).
Proof.
  induction l as [|x r IH]; simpl; [constructor|].
  now apply insert_sorted_Sorted.
Qed.

(** X13: the names offered for the target language are exactly the names
    that have a code, each once and in ascending order, so every name of the
    list resolves to a code. *)
Theorem language_names_sorted_and_complete :
  Sorted (fun a b => String.leb a b = true) get_all_language_names
  /\ NoDup get_all_language_names
  /\ forall name,
       In name get_all_language_names
       <-> exists code, get_language_code name = Some code.
Proof.
  unfold get_all_language_names. split; [apply sorted_Sorted|].
  assert (Hnd : NoDup (keys LANGUAGES)).
  { assert (E : nodup string_dec (keys LANGUAGES) = keys LANGUAGES)
      by (vm_compute; reflexivity).
    rewrite <- E. apply NoDup_nodup. }
  split.
  - apply (Permutation_NoDup (l := keys LANGUAGES)); [|exact Hnd].
    symmetry. apply sorted_perm.
  - intro name. split.
    + intro H. apply (Permutation_in _ (sorted_perm _)) in H.
      apply in_map_iff in H as ([n c] & E & Hin). simpl in E. subst n.
      exists c. apply (LANGUAGES_entries name c Hin).
    + intros (c & H). apply dict_lookup_In in H.
      apply (Permutation_in name (Permutation_sym (sorted_perm _))).
      apply in_map_iff. now exists (name, c).
Qed.

(** ** Tokens and the analysis, further *)

Lemma ink_concat (l : list pystr) : ink (List.concat l) = List.concat (map ink l).
Proof.
  unfold ink. induction l as [|x r IH]; simpl; [reflexivity|].
  now rewrite filter_app, IH.
Qed.

Lemma ink_blank (s : pystr) : forallb is_space s = true -> ink s = [].
Proof.
  unfold ink. induction s as [|c r IH]; simpl; [reflexivity|].
  intro H. apply andb_true_iff in H as [Hc Hr]. rewrite Hc. simpl. auto.
Qed.

Lemma ink_all (s : pystr) :
  forallb (fun c => negb (is_space c)) s = true -> ink s = s.
Proof.
  unfold ink. induction s as [|c r IH]; simpl; [reflexivity|].
  intro H. apply andb_true_iff in H as [Hc Hr]. rewrite Hc, IH by exact Hr.
  reflexivity.
Qed.

Lemma registered_has_name (tag : string) :
  registered tag = true ->
  exists name,
    get_language_code name = Some tag /\ get_language_name_from_code tag = name.
Proof.
  unfold registered. rewrite tag_in_In, in_map_iff.
  intros ([name code] & E & Hin). simpl in E. subst code.
  exists name. apply LANGUAGES_entries, Hin.
Qed.

Lemma first_occurrences_constant (tag : string) (l : list string) :
  (forall x, In x l -> x = tag) ->
  first_occurrences l = [] \/ first_occurrences l = [tag].
Proof.
  induction l as [|x r IH]; intro H; [now left|]. right. simpl.
  rewrite (H x (or_introl eq_refl)).
  destruct IH as [E|E]; [intros; apply H; now right| |]; rewrite E; simpl.
  - reflexivity.
  - now rewrite String.eqb_refl.
Qed.

Section AnalysisFacts.

Variable is_word : char -> bool.
Variable LANGDETECT_AVAILABLE : bool.
Variable detect : World -> pystr -> option string.

Lemma findall_fuel_homogeneous (fuel : nat) (text : pystr) :
  Forall (homogeneous is_word) (findall_fuel is_word fuel text).
Proof.
  revert text. induction fuel as [|fuel IH]; intro text.
  - destruct text; constructor.
  - destruct text as [|c r]; [constructor|]. cbn [findall_fuel].
    set (alt := if is_word c then is_word
                else if is_punct_char is_word c then is_punct_char is_word
                else is_space).
    pose proof (span_all alt (c :: r)) as Hall.
    destruct (span alt (c :: r)) as [tok rest]. cbn [fst] in Hall.
    constructor; [|apply IH].
    unfold homogeneous, alt in *.
    destruct (is_word c); [auto|].
    destruct (is_punct_char is_word c); auto.
Qed.

(** X14: the tokens of a text, put end to end, are the text; no token is
    empty, and each is a run of word characters, a run of punctuation or a
    run of whitespace. *)
Theorem findall_tokens_partition (text : pystr) :
  List.concat (findall_tokens is_word text) = text
  /\ Forall (fun tok => tok <> [] /\ homogeneous is_word tok)
       (findall_tokens is_word text).
Proof.
  destruct (findall_fuel_concat is_word (List.length text) text (le_n _))
    as [E F].
  split; [exact E|].
  pose proof (findall_fuel_homogeneous (List.length text) text) as H.
  unfold findall_tokens. rewrite Forall_forall in *. auto.
Qed.

(** The query log and the engine log after the tagging loop. *)
Lemma tag_tokens_queries (tokens : list pystr) :
  forall (tagged : list (pystr * string)) (context_lang : string) (w : World),
    exists tagged' w',
      tag_tokens is_word LANGDETECT_AVAILABLE detect tokens tagged context_lang w
      = (Ok tagged', w')
      /\ identifier_queries w'
         = identifier_queries w
           ++ map strip (filter (asks is_word LANGDETECT_AVAILABLE) tokens)
      /\ engine_calls w' = engine_calls w.
Proof.
  induction tokens as [|tok rest IH]; intros tagged ctx w.
  - exists tagged, w. simpl. now rewrite app_nil_r.
  - cbn [tag_tokens filter]. unfold asks at 1.
    destruct (isspace tok); cbn [negb andb]; [apply IH|].
    destruct (fullmatch_plus (is_punct_char is_word) tok); cbn [negb andb];
      [apply IH|].
    unfold bind at 1. rewrite detect_language_eq. cbv zeta.
    destruct (LANGDETECT_AVAILABLE && (4 <=? len (strip tok))%Z
              && no_script (strip tok)).
    + match goal with
      | |- context [tag_tokens _ _ _ rest ?t ?c ?w1] =>
          destruct (IH t c w1) as (t' & w' & E & Hq & He)
      end.
      exists t', w'. split; [exact E|]. split; [|exact He].
      rewrite Hq. simpl. now rewrite <- app_assoc.
    + match goal with
      | |- context [tag_tokens _ _ _ rest ?t ?c ?w1] =>
          destruct (IH t c w1) as (t' & w' & E & Hq & He)
      end.
      exists t', w'. auto.
Qed.

(** The tags after the tagging loop are codes of the registry. *)
Lemma tag_tokens_registered (tokens : list pystr) :
  forall (tagged : list (pystr * string)) (context_lang : string) (w : World),
    registered context_lang = true ->
    Forall (fun x => snd x = "punct" \/ registered (snd x) = true) tagged ->
    exists tagged' w',
      tag_tokens is_word LANGDETECT_AVAILABLE detect tokens tagged context_lang w
      = (Ok tagged', w')
      /\ Forall (fun x => snd x = "punct" \/ registered (snd x) = true) tagged'.
Proof.
  induction tokens as [|tok rest IH]; intros tagged ctx w Hctx HF.
  - exists tagged, w. auto.
  - cbn [tag_tokens].
    destruct (isspace tok); [now apply IH|].
    destruct (fullmatch_plus (is_punct_char is_word) tok).
    + apply IH; [exact Hctx|]. apply Forall_app. split; [exact HF|].
      constructor; [now left | constructor].
    + unfold bind at 1.
      destruct (detect_language_registered LANGDETECT_AVAILABLE detect tok ctx w)
        as (lang & w1 & E & Hl).
      rewrite E.
      assert (Hr : registered lang = true) by (destruct Hl; [congruence | assumption]).
      apply IH; [exact Hr|]. apply Forall_app. split; [exact HF|].
      constructor; [now right | constructor].
Qed.

End AnalysisFacts.

Lemma asks_unavailable (is_word : char -> bool) (l : list pystr) :
  filter (asks is_word false) l = [].
Proof.
  induction l as [|tok r IH]; [reflexivity|]. simpl. unfold asks at 1.
  rewrite !andb_false_r. simpl. exact IH.
Qed.

Lemma asks_long_scriptless (is_word : char -> bool) (available : bool)
    (l : list pystr) :
  Forall (fun q => (4 <= len q)%Z /\ no_script q = true)
    (map strip (filter (asks is_word available) l)).
Proof.
  apply Forall_forall. intros q Hq.
  apply in_map_iff in Hq as (tok & <- & Hin).
  apply filter_In in Hin as [_ Ha]. unfold asks in Ha.
  apply andb_true_iff in Ha as [Ha Hs]. apply andb_true_iff in Ha as [_ Hl].
  split; [lia | exact Hs].
Qed.

Section AnalysisTheorems.

Variable is_word : char -> bool.
Variable LANGDETECT_AVAILABLE : bool.
Variable detect : World -> pystr -> option string.

(** On text that is not blank, [analyze_words] is the tagging loop over the
    tokens followed by the count of the tags. *)
Lemma analyze_words_run (text : pystr) (w : World)
    (tagged : list (pystr * string)) (w' : World) :
  strip text <> [] ->
  tag_tokens is_word LANGDETECT_AVAILABLE detect (findall_tokens is_word text)
    [] "eng_Latn" w = (Ok tagged, w') ->
  exists a,
    analyze_words is_word LANGDETECT_AVAILABLE detect text w = (Ok a, w')
    /\ words a = tagged.
Proof.
  intros Hne E. unfold analyze_words.
  assert (Ht : is_empty text = false).
  { destruct text; [now contradiction Hne | reflexivity]. }
  apply is_empty_false in Hne. rewrite Ht, Hne. cbn [orb].
  rewrite (bind_ok _ _ _ _ _ E). eexists. split; reflexivity.
Qed.

Lemma blank_tokens_ask_nothing (text : pystr) :
  strip text = [] ->
  filter (asks is_word LANGDETECT_AVAILABLE) (findall_tokens is_word text) = []
  /\ filter (fun tok => negb (isspace tok)) (findall_tokens is_word text) = [].
Proof.
  intro Hb.
  assert (Hs : forall c, In c text -> is_space c = true).
  { intros c Hc. destruct (is_space c) eqn:E; [reflexivity|].
    pose proof (strip_keeps text c Hc E) as H. rewrite Hb in H. destruct H. }
  destruct (findall_fuel_concat is_word (List.length text) text (le_n _))
    as [Ec F].
  fold (findall_tokens is_word text) in Ec, F.
  assert (Hall : forall tok, In tok (findall_tokens is_word text) ->
                   isspace tok = true).
  { intros tok Hin. rewrite Forall_forall in F. specialize (F tok Hin).
    destruct tok as [|c r]; [now contradiction F|]. unfold isspace.
    apply forallb_forall. intros d Hd. apply Hs. rewrite <- Ec.
    apply in_concat. eauto. }
  clear Ec F. revert Hall. generalize (findall_tokens is_word text).
  intros l Hall. split; induction l as [|tok r IH]; try reflexivity; simpl.
  - unfold asks at 1. rewrite (Hall tok (or_introl eq_refl)). simpl.
    apply IH. intros; apply Hall; now right.
  - rewrite (Hall tok (or_introl eq_refl)). simpl.
    apply IH. intros; apply Hall; now right.
Qed.

(** X15: [analyze_words] asks the identifier exactly about the words of the
    text that have at least four characters and none of a recognised script,
    in text order and once per occurrence, and only when the identifier is
    available; it never calls the engine. *)
Theorem analyze_words_queries (text : pystr) (w : World) :
  exists a w' queries,
    analyze_words is_word LANGDETECT_AVAILABLE detect text w = (Ok a, w')
    /\ identifier_queries w' = identifier_queries w ++ queries
    /\ engine_calls w' = engine_calls w
    /\ queries
       = map strip (filter (asks is_word LANGDETECT_AVAILABLE)
                      (findall_tokens is_word text))
    /\ Forall (fun q => (4 <= len q)%Z /\ no_script q = true) queries
    /\ (if LANGDETECT_AVAILABLE then True else queries = []).
Proof.
  set (queries := map strip (filter (asks is_word LANGDETECT_AVAILABLE)
                               (findall_tokens is_word text))).
  pose proof (asks_long_scriptless is_word LANGDETECT_AVAILABLE
                (findall_tokens is_word text)) as HF.
  fold queries in HF.
  assert (Hav : if LANGDETECT_AVAILABLE then True else queries = []).
  { unfold queries. destruct LANGDETECT_AVAILABLE; [exact I|].
    now rewrite asks_unavailable. }
  destruct (strip text) as [|c r] eqn:Hs.
  - exists empty_analysis, w, queries.
    assert (Eq : queries = []).
    { unfold queries. now rewrite (proj1 (blank_tokens_ask_nothing text Hs)). }
    split.
    + unfold analyze_words. rewrite Hs. cbn [is_empty].
      now rewrite orb_true_r.
    + split; [rewrite Eq; now rewrite app_nil_r|].
      repeat split; try assumption; reflexivity.
  - destruct (tag_tokens_queries is_word LANGDETECT_AVAILABLE detect
                (findall_tokens is_word text) [] "eng_Latn" w)
      as (tagged & w' & E & Hq & He).
    destruct (analyze_words_run text w tagged w') as (a & Ea & _);
      [rewrite Hs; discriminate | exact E |].
    exists a, w', queries. repeat split; try assumption; reflexivity.
Qed.

(** X16: every tag [analyze_words] gives to a word is the punctuation marker
    or a code of the registry, and every language it reports has a name
    there, the one [get_language_name_from_code] shows. *)
Theorem analysis_tags_have_names (text : pystr) (w : World) :
  exists a w',
    analyze_words is_word LANGDETECT_AVAILABLE detect text w = (Ok a, w')
    /\ (forall tok tag, In (tok, tag) (words a) ->
        tag = "punct"
        \/ exists name, get_language_code name = Some tag
                        /\ get_language_name_from_code tag = name)
    /\ (forall tag, In tag (languages_detected a) ->
        exists name, get_language_code name = Some tag
                     /\ get_language_name_from_code tag = name).
Proof.
  destruct (analyze_words_ok is_word LANGDETECT_AVAILABLE detect text w)
    as (a & w' & E & _ & HF & Hl & _).
  exists a, w'. split; [exact E|].
  assert (Hreg : Forall (fun x => snd x = "punct" \/ registered (snd x) = true)
                   (words a)).
  { destruct (strip text) as [|c r] eqn:Hs.
    - unfold analyze_words in E. rewrite Hs in E. cbn [is_empty] in E.
      rewrite orb_true_r in E. injection E as <- _. constructor.
    - destruct (tag_tokens_registered is_word LANGDETECT_AVAILABLE detect
                  (findall_tokens is_word text) [] "eng_Latn" w eq_refl
                  (Forall_nil _)) as (tagged & w1 & Et & Hr).
      destruct (analyze_words_run text w tagged w1) as (a' & Ea & Hw);
        [rewrite Hs; discriminate | exact Et |].
      rewrite E in Ea. injection Ea as -> _. now rewrite Hw. }
  rewrite Forall_forall in Hreg, HF. split.
  - intros tok tag Hin. destruct (Hreg _ Hin) as [H|H]; [now left|].
    right. apply registered_has_name, H.
  - intros tag Hin. rewrite Hl, first_occurrences_In in Hin.
    unfold word_tags in Hin. apply in_map_iff in Hin as ([tok t] & Et & Hin).
    simpl in Et. subst t. apply filter_In in Hin as [Hin Hp]. simpl in Hp.
    destruct (Hreg _ Hin) as [H|H]; [|apply registered_has_name, H].
    exfalso. apply HF in Hin. unfold well_tagged in Hin. simpl in *.
    apply Hin in H. rewrite H in Hp. discriminate.
Qed.

End AnalysisTheorems.

Lemma token_ink (is_word : char -> bool) (tok : pystr) :
  (forall c, is_word c = true -> is_space c = false) ->
  tok <> [] -> homogeneous is_word tok ->
  (if isspace tok then ink tok = [] else ink tok = tok).
Proof.
  intros Hws Hne [H | [H | H]].
  - assert (Hn : forallb (fun c => negb (is_space c)) tok = true).
    { rewrite forallb_forall in *. intros c Hc. now rewrite (Hws c (H c Hc)). }
    destruct tok as [|c r]; [now contradiction Hne|]. unfold isspace.
    replace (forallb is_space (c :: r)) with false; [apply ink_all, Hn|].
    simpl in *. apply andb_true_iff in Hn as [Hc _].
    apply negb_true_iff in Hc. now rewrite Hc.
  - assert (Hn : forallb (fun c => negb (is_space c)) tok = true).
    { rewrite forallb_forall in *. intros c Hc. specialize (H c Hc).
      unfold is_punct_char in H. now apply andb_true_iff in H as [_ H]. }
    destruct tok as [|c r]; [now contradiction Hne|]. unfold isspace.
    replace (forallb is_space (c :: r)) with false; [apply ink_all, Hn|].
    simpl in *. apply andb_true_iff in Hn as [Hc _].
    apply negb_true_iff in Hc. now rewrite Hc.
  - destruct tok as [|c r]; [now contradiction Hne|]. unfold isspace.
    rewrite H. apply ink_blank, H.
Qed.

Lemma concat_ink_tokens (is_word : char -> bool) (l : list pystr) :
  (forall c, is_word c = true -> is_space c = false) ->
  Forall (fun tok => tok <> [] /\ homogeneous is_word tok) l ->
  List.concat (filter (fun tok => negb (isspace tok)) l) = ink (List.concat l).
Proof.
  intros Hws H. rewrite ink_concat.
  induction H as [|tok r [Hne Hh] _ IH]; [reflexivity|]. simpl.
  pose proof (token_ink is_word tok Hws Hne Hh) as Ht.
  destruct (isspace tok); simpl; rewrite Ht, IH; reflexivity.
Qed.

Section WordsOfText.

Variable is_word : char -> bool.
Variable LANGDETECT_AVAILABLE : bool.
Variable detect : World -> pystr -> option string.

(** X17: when no word character is whitespace, as in Unicode, the tokens of
    the word list of [analyze_words], put end to end, are the text without
    its whitespace: the analysis loses no other character and keeps the
    order. *)
Theorem analysis_words_cover_text (text : pystr) (w : World) :
  (forall c, is_word c = true -> is_space c = false) ->
  exists a w',
    analyze_words is_word LANGDETECT_AVAILABLE detect text w = (Ok a, w')
    /\ List.concat (map fst (words a)) = ink text.
Proof.
  intro Hws. destruct (strip text) as [|c r] eqn:Hs.
  - exists empty_analysis, w. split.
    + unfold analyze_words. rewrite Hs. cbn [is_empty]. now rewrite orb_true_r.
    + simpl. rewrite <- ink_strip, Hs. reflexivity.
  - destruct (tag_tokens_ok is_word LANGDETECT_AVAILABLE detect
                (findall_tokens is_word text) [] "eng_Latn" w)
      as (tagged & w' & E & _ & Hm & _); [discriminate|].
    destruct (analyze_words_run is_word LANGDETECT_AVAILABLE detect
                text w tagged w') as (a & Ea & Hw);
      [rewrite Hs; discriminate | exact E |].
    exists a, w'. split; [exact Ea|]. rewrite Hw, Hm. simpl.
    destruct (findall_fuel_concat is_word (List.length text) text (le_n _))
      as [Ec F].
    pose proof (findall_fuel_homogeneous is_word (List.length text) text) as Hh.
    fold (findall_tokens is_word text) in Ec, F, Hh.
    rewrite (concat_ink_tokens is_word); [now rewrite Ec | exact Hws |].
    rewrite Forall_forall in *. auto.
Qed.

(** The tagging loop over tokens whose words all hold the same script. *)
Lemma tag_tokens_single_script (tag : string) (tokens : list pystr) :
  Forall (fun tok =>
            isspace tok = false ->
            fullmatch_plus (is_punct_char is_word) tok = false ->
            detect_by_script (strip tok) = Ok (Some tag)) tokens ->
  forall (tagged : list (pystr * string)) (context_lang : string) (w : World),
    tag_tokens is_word LANGDETECT_AVAILABLE detect tokens tagged context_lang w
    = (Ok (tagged
           ++ map (fun tok =>
                     (tok, if fullmatch_plus (is_punct_char is_word) tok
                           then "punct" else tag))
                (filter (fun tok => negb (isspace tok)) tokens)), w).
Proof.
  induction 1 as [|tok rest Ht _ IH]; intros tagged ctx w.
  - simpl. now rewrite app_nil_r.
  - cbn [tag_tokens filter].
    destruct (isspace tok) eqn:Hs; cbn [negb]; [apply IH|].
    destruct (fullmatch_plus (is_punct_char is_word) tok) eqn:Hp.
    + rewrite IH. cbn [map]. rewrite Hp, <- app_assoc. reflexivity.
    + specialize (Ht eq_refl eq_refl).
      unfold bind at 1. rewrite detect_language_eq. cbv zeta.
      unfold no_script. rewrite Ht, andb_false_r.
      rewrite IH. cbn [map]. rewrite Hp, <- app_assoc. reflexivity.
Qed.

(** X18: when every word of the text holds a character of one and the same
    recognised script (as the table order decides), the identifier is not
    asked and the world is left as it was; the word list is the list of the
    tokens that are not whitespace, each run of punctuation with the marker
    and every word with that script's tag, whatever the identifier would
    say; and the languages detected are that tag alone when the text has a
    word, and none when it has no word. *)
Theorem single_script_text (tag : string) (text : pystr) (w : World) :
  (forall tok, In tok (findall_tokens is_word text) ->
     isspace tok = false ->
     fullmatch_plus (is_punct_char is_word) tok = false ->
     detect_by_script (strip tok) = Ok (Some tag)) ->
  exists a,
    analyze_words is_word LANGDETECT_AVAILABLE detect text w = (Ok a, w)
    /\ words a
       = map (fun tok =>
                (tok, if fullmatch_plus (is_punct_char is_word) tok
                      then "punct" else tag))
           (filter (fun tok => negb (isspace tok)) (findall_tokens is_word text))
    /\ languages_detected a
       = (if existsb (fun tok =>
                        negb (isspace tok)
                        && negb (fullmatch_plus (is_punct_char is_word) tok))
               (findall_tokens is_word text)
          then [tag] else [])
    /\ (forall tok t, In (tok, t) (words a) ->
        t = if fullmatch_plus (is_punct_char is_word) tok then "punct" else tag)
    /\ (languages_detected a = [] \/ languages_detected a = [tag]).
Proof.
  intro H.
  destruct (analyze_words_ok is_word LANGDETECT_AVAILABLE detect text w)
    as (a & w' & E & _ & _ & Hl & _).
  assert (Hw : w' = w
               /\ words a
                  = map (fun tok =>
                           (tok, if fullmatch_plus (is_punct_char is_word) tok
                                 then "punct" else tag))
                      (filter (fun tok => negb (isspace tok))
                         (findall_tokens is_word text))).
  { destruct (strip text) as [|c r] eqn:Hs.
    - destruct (blank_tokens_ask_nothing is_word LANGDETECT_AVAILABLE text Hs)
        as [_ Hf].
      rewrite Hf. unfold analyze_words in E. rewrite Hs in E.
      cbn [is_empty] in E. rewrite orb_true_r in E. injection E as <- <-.
      split; reflexivity.
    - pose proof (tag_tokens_single_script tag (findall_tokens is_word text)
                    (proj2 (Forall_forall _ _) H) [] "eng_Latn" w) as Et.
      destruct (fun Hne => analyze_words_run is_word LANGDETECT_AVAILABLE detect
                  text w _ w Hne Et) as (a' & Ea & Hw);
        [rewrite Hs; discriminate |].
      rewrite E in Ea. injection Ea as -> ->. split; [reflexivity|].
      exact Hw. }
  destruct Hw as [-> Hw]. exists a. split; [exact E|]. split; [exact Hw|].
  assert (Hall : forall tok t, In (tok, t) (words a) ->
            t = if fullmatch_plus (is_punct_char is_word) tok
                then "punct" else tag).
  { intros tok t Hin. rewrite Hw in Hin.
    apply in_map_iff in Hin as (tok' & Ep & _). now injection Ep as <- <-. }
  assert (Hconst : forall x, In x (word_tags is_word (words a)) -> x = tag).
  { intros x Hx. unfold word_tags in Hx.
    apply in_map_iff in Hx as ([tok t] & <- & Hin).
    apply filter_In in Hin as [Hin Hp]. simpl in *.
    rewrite (Hall tok t Hin). apply negb_true_iff in Hp. now rewrite Hp. }
  assert (Hlang : languages_detected a
                  = (if existsb (fun tok =>
                                   negb (isspace tok)
                                   && negb (fullmatch_plus
                                              (is_punct_char is_word) tok))
                          (findall_tokens is_word text)
                     then [tag] else [])).
  { rewrite Hl.
    destruct (existsb _ (findall_tokens is_word text)) eqn:Ex.
    - apply existsb_exists in Ex as (tok & Hin & Hg).
      apply andb_true_iff in Hg as [Hns Hnp].
      assert (Ht : In tag (word_tags is_word (words a))).
      { unfold word_tags. apply in_map_iff. exists (tok, tag).
        split; [reflexivity|]. apply filter_In. split; [|exact Hnp].
        rewrite Hw. apply in_map_iff. exists tok. split.
        - apply negb_true_iff in Hnp. now rewrite Hnp.
        - apply filter_In. split; assumption. }
      apply first_occurrences_In in Ht.
      destruct (first_occurrences_constant tag _ Hconst) as [E0|E1];
        [rewrite E0 in Ht; destruct Ht | exact E1].
    - assert (Hnil : word_tags is_word (words a) = []).
      { destruct (word_tags is_word (words a)) as [|x r] eqn:Ew; [reflexivity|].
        exfalso.
        assert (Hx : In x (word_tags is_word (words a)))
          by (rewrite Ew; now left).
        unfold word_tags in Hx.
        apply in_map_iff in Hx as ([tok t] & _ & Hin).
        apply filter_In in Hin as [Hin Hp]. simpl in Hp.
        rewrite Hw in Hin. apply in_map_iff in Hin as (tok' & Ep & Hf).
        injection Ep as -> _. apply filter_In in Hf as [Hf Hns].
        assert (Ex' : existsb (fun tok0 =>
                                 negb (isspace tok0)
                                 && negb (fullmatch_plus
                                            (is_punct_char is_word) tok0))
                        (findall_tokens is_word text) = true).
        { apply existsb_exists. exists tok. split; [exact Hf|].
          now rewrite Hns, Hp. }
        rewrite Ex' in Ex. discriminate Ex. }
      rewrite Hnil. reflexivity. }
  split; [exact Hlang|]. split; [exact Hall|].
  rewrite Hl. apply first_occurrences_constant, Hconst.
Qed.

End WordsOfText.

Lemma analysis_words_cover_text_witness :
  exists a w',
    analyze_words ascii_word true sample_detect (lit " Bonjour,  le monde! ") w0
    = (Ok a, w')
    /\ List.concat (map fst (words a)) = ink (lit " Bonjour,  le monde! ").
Proof.
  apply (analysis_words_cover_text ascii_word true sample_detect
           (lit " Bonjour,  le monde! ") w0).
  intros c H. unfold ascii_word, is_space, in_range in *.
  repeat match goal with
         | |- (_ || _)%bool = false => apply orb_false_iff; split
         | |- (_ && _)%bool = false => apply andb_false_iff
         end; lia.
Defined.

Lemma single_script_text_witness :
  exists a,
    analyze_words ascii_word true sample_detect
      [1605; 1585; 1581; 1576; 1575; 44; 32; 1593; 1575; 1604; 1605]%Z w0
    = (Ok a, w0)
    /\ words a
       = [([1605; 1585; 1581; 1576; 1575]%Z, "arb_Arab"); ([44]%Z, "punct");
          ([1593; 1575; 1604; 1605]%Z, "arb_Arab")]
    /\ languages_detected a = ["arb_Arab"]
    /\ (forall tok t, In (tok, t) (words a) ->
        t = if fullmatch_plus (is_punct_char ascii_word) tok
            then "punct" else "arb_Arab")
    /\ (languages_detected a = [] \/ languages_detected a = ["arb_Arab"]).
Proof.
  apply (single_script_text ascii_word true sample_detect "arb_Arab"
           [1605; 1585; 1581; 1576; 1575; 44; 32; 1593; 1575; 1604; 1605]%Z w0).
  intros tok Hin. vm_compute in Hin.
  repeat (destruct Hin as [<- | Hin]; [intros; try discriminate; reflexivity |]).
  destruct Hin.
Defined.

(** ** Selection, further *)

Section SelectionFacts.

Variable is_word : char -> bool.
Variable LANGDETECT_AVAILABLE : bool.
Variable detect : World -> pystr -> option string.
Variable generate : World -> pystr -> string -> string -> option pystr.



(** X20: [translate] gives the same outcome for a text and for its normal
    form. *)
Theorem translate_of_normal_form (text : pystr) (tgt : string) (w : World) :
  translate is_word LANGDETECT_AVAILABLE detect generate (normalize text) tgt w
  = translate is_word LANGDETECT_AVAILABLE detect generate text tgt w.
Proof. unfold translate. now rewrite normalize_fixed. Qed.

End SelectionFacts.

Lemma hypotheses_among_four (detected : list string) (src : string) :
  In src (hypotheses detected) ->
  In src ["arb_Arab"; "eng_Latn"; "fra_Latn"; "spa_Latn"].
Proof. case_detected detected; simpl; tauto. Qed.

Section SelectionResults.

Variable is_word : char -> bool.
Variable LANGDETECT_AVAILABLE : bool.
Variable detect : World -> pystr -> option string.
Variable generate : World -> pystr -> string -> string -> option pystr.

(** X21: a result of [translate] for text that is not blank carries an
    answer of the engine, stripped, so without whitespace at either end,
    together with the source language that answer was requested with, which
    is Arabic, English, French or Spanish. *)
Theorem translate_result_is_an_answer (text : pystr) (tgt : string) (w : World) :
  match translate is_word LANGDETECT_AVAILABLE detect generate text tgt w with
  | (Ok r, _) =>
      normalize text = []
      \/ (strip (translation r) = translation r
          /\ exists src w2 d,
               best_src r = Some src
               /\ In src ["arb_Arab"; "eng_Latn"; "fra_Latn"; "spa_Latn"]
               /\ generate w2 (normalize text) src tgt = Some d
               /\ translation r = strip d)
  | (Raise _, _) => True
  end.
Proof.
  destruct (normalize text) as [|c r] eqn:Hn.
  - rewrite (translate_blank is_word LANGDETECT_AVAILABLE detect generate
               text tgt w Hn). now left.
  - rewrite <- Hn.
    assert (Hne : normalize text <> []) by (rewrite Hn; discriminate).
    destruct (translate_outcome is_word LANGDETECT_AVAILABLE detect generate
                text tgt w Hne)
      as (a & w1 & _ & _ & [(w' & w2 & src & E & _ & _)
                           | (outs & w' & i & best & _ & Hs & HF & Hi & _ & _ & E)]);
      rewrite E; [exact I|].
    right. apply nth_error_In in Hi. rewrite Forall_forall in HF.
    destruct (HF best Hi) as (_ & w2 & d & Hg & Ho).
    cbn [translation best_src]. split; [rewrite Ho; apply strip_idempotent|].
    exists (cand_src best), w2, d. split; [reflexivity|].
    split; [|split; assumption].
    apply (hypotheses_among_four (languages_detected a)). rewrite <- Hs.
    now apply in_map.
Qed.

(** X22: as long as the engine's answers have at most 49,900 characters in
    normal form, [translate] returns an empty translation for text that is
    not blank only when every candidate is empty: one candidate that is not
    empty is enough for a result that is not empty. *)
Theorem empty_result_means_all_empty (text : pystr) (tgt : string) (w : World) :
  normalize text <> [] ->
  (forall w2 src d,
      generate w2 (normalize text) src tgt = Some d ->
      (len (normalize (strip d)) <= 49900)%Z) ->
  match translate is_word LANGDETECT_AVAILABLE detect generate text tgt w with
  | (Ok r, w') =>
      exists a w1 outputs,
        analyze_words is_word LANGDETECT_AVAILABLE detect (normalize text) w
        = (Ok a, w1)
        /\ translate_candidates generate (normalize text) tgt
             (hypotheses (languages_detected a)) w1 = (Ok outputs, w')
        /\ In (translation r) (map cand_out outputs)
        /\ (translation r = [] -> forall x, In x outputs -> cand_out x = [])
  | (Raise _, _) => True
  end.
Proof.
  intros Hne Hlen.
  destruct (translate_outcome is_word LANGDETECT_AVAILABLE detect generate
              text tgt w Hne)
    as (a & w1 & Ea & _ & [(w' & w2 & src & E & _ & _)
                          | (outs & w' & i & best & Ec & _ & HF & Hi & Hmax & _ & E)]);
    rewrite E; [exact I|].
  exists a, w1, outs. split; [exact Ea|]. split; [exact Ec|].
  apply nth_error_In in Hi. cbn [translation].
  split; [now apply in_map|].
  intros Hb x Hx. rewrite Forall_forall in HF.
  destruct (HF best Hi) as (Hqb & _). rewrite Hb in Hqb. cbn in Hqb.
  injection Hqb as Hqb.
  destruct (HF x Hx) as (Hqx & w2 & d & Hg & Ho).
  destruct (cand_out x) as [|c r] eqn:Hox; [reflexivity|]. exfalso.
  assert (Hsn : strip d <> []) by (rewrite <- Ho; discriminate).
  destruct (score_above_sentinel (normalize text) (strip d) tgt
              (normalize_strip_nonempty d Hsn) (Hlen w2 _ d Hg)) as (q & Eq & Hq).
  rewrite <- Ho, Hqx in Eq. injection Eq as <-.
  specialize (Hmax x Hx). rewrite <- Hqb in Hmax.
  exact (Qlt_irrefl _ (Qlt_le_trans _ _ _ Hq Hmax)).
Qed.

End SelectionResults.

Lemma empty_result_means_all_empty_witness :
  match translate ascii_word true sample_detect sample_engine
          (lit "Bonjour le monde") "eng_Latn" w0 with
  | (Ok r, w') =>
      exists a w1 outputs,
        analyze_words ascii_word true sample_detect
          (normalize (lit "Bonjour le monde")) w0 = (Ok a, w1)
        /\ translate_candidates sample_engine (normalize (lit "Bonjour le monde"))
             "eng_Latn" (hypotheses (languages_detected a)) w1 = (Ok outputs, w')
        /\ In (translation r) (map cand_out outputs)
        /\ (translation r = [] -> forall x, In x outputs -> cand_out x = [])
  | (Raise _, _) => True
  end.
Proof.
  apply (empty_result_means_all_empty ascii_word true sample_detect sample_engine
           (lit "Bonjour le monde") "eng_Latn" w0).
  - vm_compute. discriminate.
  - intros w2 src d H. unfold sample_engine in H. injection H as <-.
    destruct (String.eqb src "fra_Latn"); vm_compute; discriminate.
Defined.

(** ** Leftover counts, further *)

Lemma count_leftover_insert (a b : pystr) (c : char) (tgt : string) :
  a ++ b <> [] ->
  count_leftover_scripts (a ++ c :: b) tgt
  = (count_leftover_scripts (a ++ b) tgt
     + (let arabic := if ARABIC_RE c then 1 else 0 in
        let latin := if LATIN_RE c then 1 else 0 in
        let cyr := if CYRILLIC_RE c then 1 else 0 in
        let cjk := if CJK_RE c then 1 else 0 in
        if tag_in tgt arabic_targets then latin + cyr + cjk
        else if tag_in tgt latin_targets then arabic + cyr + cjk
        else if tag_in tgt cyrillic_targets then latin + arabic + cjk
        else if tag_in tgt cjk_targets then latin + arabic + cyr
        else latin + arabic))%Z.
Proof.
  intro Hne. unfold count_leftover_scripts.
  apply is_empty_false in Hne. rewrite Hne.
  replace (is_empty (a ++ c :: b)) with false by (destruct a; reflexivity).
  cbv zeta. rewrite !count_matches_app, !count_matches_cons.
  repeat match goal with
         | |- context [if tag_in tgt ?l then _ else _] => destruct (tag_in tgt l)
         end; lia.
Qed.

(** X23: a character that is neither a Latin letter nor in the Arabic,
    Cyrillic or CJK block (a digit, a space, a punctuation mark, a Greek or
    a Hangul letter) is never counted as a leftover, whatever the target. *)
Theorem neutral_characters_are_not_leftovers (a b : pystr) (c : char)
    (tgt : string) :
  a ++ b <> [] ->
  LATIN_RE c = false -> ARABIC_RE c = false ->
  CYRILLIC_RE c = false -> CJK_RE c = false ->
  count_leftover_scripts (a ++ c :: b) tgt = count_leftover_scripts (a ++ b) tgt.
Proof.
  intros Hne Hl Ha Hc Hj. rewrite (count_leftover_insert a b c tgt Hne).
  cbv zeta. rewrite Hl, Ha, Hc, Hj.
  repeat match goal with
         | |- context [if ?x then _ else _] => destruct x
         end; lia.
Qed.

Lemma neutral_characters_are_not_leftovers_witness :
  count_leftover_scripts (lit "ab" ++ 955%Z :: lit "c") "rus_Cyrl"
  = count_leftover_scripts (lit "ab" ++ lit "c") "rus_Cyrl".
Proof.
  apply (neutral_characters_are_not_leftovers (lit "ab") (lit "c") 955%Z
           "rus_Cyrl"); [discriminate | reflexivity..].
Defined.

(** X24: for the listed targets, a character of the target's own script is
    never a leftover: an Arabic character for the three Arabic-script
    targets, a Cyrillic one for the three Cyrillic targets, a CJK one for the
    four CJK targets. *)
Theorem own_script_is_not_leftover (a b : pystr) (c : char) (tgt : string) :
  a ++ b <> [] ->
  (tag_in tgt arabic_targets && ARABIC_RE c
   || tag_in tgt cyrillic_targets && CYRILLIC_RE c
   || tag_in tgt cjk_targets && CJK_RE c) = true ->
  count_leftover_scripts (a ++ c :: b) tgt = count_leftover_scripts (a ++ b) tgt.
Proof.
  intros Hne H. rewrite (count_leftover_insert a b c tgt Hne). cbv zeta.
  assert (Hscripts :
            (ARABIC_RE c = true ->
             LATIN_RE c = false /\ CYRILLIC_RE c = false /\ CJK_RE c = false)
            /\ (CYRILLIC_RE c = true ->
                LATIN_RE c = false /\ ARABIC_RE c = false /\ CJK_RE c = false)
            /\ (CJK_RE c = true ->
                LATIN_RE c = false /\ ARABIC_RE c = false /\ CYRILLIC_RE c = false)).
  { unfold LATIN_RE, ARABIC_RE, CYRILLIC_RE, CJK_RE, in_range.
    repeat split; intros; apply not_true_iff_false; intro; lia. }
  destruct Hscripts as (HA & HC & HJ).
  apply orb_true_iff in H as [H | H]; [apply orb_true_iff in H as [H | H]|];
    apply andb_true_iff in H as [Ht Hs].
  - rewrite Ht. destruct (HA Hs) as (-> & -> & ->). lia.
  - assert (E : tag_in tgt arabic_targets = false /\ tag_in tgt latin_targets = false).
    { unfold tag_in, cyrillic_targets in Ht. simpl in Ht.
      repeat (apply orb_true_iff in Ht as [Ht|Ht]);
        try (apply String.eqb_eq in Ht; subst tgt; split; reflexivity).
      discriminate Ht. }
    destruct E as [-> ->]. rewrite Ht. destruct (HC Hs) as (-> & -> & ->). lia.
  - assert (E : tag_in tgt arabic_targets = false /\ tag_in tgt latin_targets = false
                /\ tag_in tgt cyrillic_targets = false).
    { unfold tag_in, cjk_targets in Ht. simpl in Ht.
      repeat (apply orb_true_iff in Ht as [Ht|Ht]);
        try (apply String.eqb_eq in Ht; subst tgt; repeat split; reflexivity).
      discriminate Ht. }
    destruct E as (-> & -> & ->). rewrite Ht.
    destruct (HJ Hs) as (-> & -> & ->). lia.
Qed.

Lemma own_script_is_not_leftover_witness :
  count_leftover_scripts (lit "ab" ++ 1078%Z :: lit "c") "ukr_Cyrl"
  = count_leftover_scripts (lit "ab" ++ lit "c") "ukr_Cyrl".
Proof.
  apply (own_script_is_not_leftover (lit "ab") (lit "c") 1078%Z "ukr_Cyrl");
    [discriminate | reflexivity].
Defined.
